(** * A shallow embedding of [c/blockchain_demo.c]

    The C program keeps a singly linked list of blocks.  Every block stores
    the fingerprint ("hash") of its predecessor; [verify_blockchain] walks the
    list and compares neighbours.

    The embedding has two layers.

    - A functional layer, in which the NULL-terminated list that starts at
      [blockchain] is a Rocq [list] of block records and every C function is
      a Rocq function.  Calls to [time(NULL)] and the indeterminate contents
      of memory returned by [malloc] are explicit arguments.  Behaviour that
      C leaves undefined and that leaves the block (dereferencing NULL,
      signed overflow of [index], a store or a read before or behind the
      block) is the result [None].
    - A statement-level machine (module [Machine]) with a heap of cells and
      [next] pointers, in which [create_genesis_block] and [add_block] are
      run one C statement at a time.  It is related to the functional layer
      by a refinement lemma and is used for the claims about the order in
      which a block is initialised, linked and fingerprinted.

    Target assumptions, as on x86-64 Linux: [int] is 32 bits, [unsigned long]
    and [time_t] are 64 bits, plain [char] is signed.  A text field holds the
    characters of a C string up to, and without, its terminating NUL.

    One store of the program leaves its field and stays inside the block:
    [create_genesis_block] copies a literal of 38 characters into
    [previous_hash], a field of [HASH_LENGTH + 1] = 33 bytes.  C leaves this
    undefined as well, but every run of the program begins with it, so the
    embedding follows what the store does on the target: it runs through the
    field and three bytes of padding into [transactions[0].sender] (module
    [Block]), and [previous_hash] of that block shares its end with that
    sender from then on.  The theorem on [create_genesis_block] states the
    defect.  In every other block of a chain the program builds the text
    lies in its field ([built_chain_head]).

    [print_block], [print_blockchain] and [free_blockchain] are embedded in
    the same way, and the class [TokenContract] of
    [cpp/erc20_interface.cpp] as a record with finite maps (module
    [TokenContract]). *)

From Stdlib Require Import ZArith List Ascii String Lia.
From Stdlib Require DecimalString.
From Stdlib Require Import PrimFloat.
From stdpp Require Import base decidable option list strings gmap.

Open Scope Z_scope.

(** ** Text and [printf] conversions *)

(** Characters of a C string, terminator excluded. *)
Definition text := list ascii.

Definition lit (s : string) : text := list_ascii_of_string s.

(** [snprintf(buf, size, "%s"-like, ...)] stores at most [size - 1]
    characters of the formatted text, then the terminator. *)
Definition snprintf (size : nat) (formatted : text) : text :=
  take (size - 1) formatted.

(** [%d] and [%ld]: signed decimal. *)
Definition fmt_d (z : Z) : text :=
  lit (DecimalString.NilZero.string_of_int (Z.to_int z)).

Definition HEX_DIGITS : text := lit "0123456789abcdef".

Definition hex_digit (d : Z) : ascii :=
  nth (Z.to_nat d) HEX_DIGITS "0"%char.

(** Digits of [n] in base 16, most significant first, no leading zero;
    [fuel] bounds the number of digits. *)
Fixpoint hex_digits (fuel : nat) (n : Z) : text :=
  match fuel with
  | O => []
  | S fuel' =>
      if n <? 16 then [hex_digit n]
      else hex_digits fuel' (n / 16) ++ [hex_digit (n mod 16)]
  end.

(** [%lx] of an [unsigned long]: lower-case hexadecimal without padding;
    a 64-bit value has at most 16 digits. *)
Definition fmt_lx (n : Z) : text := hex_digits 16 n.

(** ** Constants *)

Definition MAX_TRANSACTIONS : Z := 10.
Definition HASH_LENGTH : nat := 32.
Definition INT_MAX : Z := 2147483647.
Definition ULONG_WIDTH : Z := 64.

(** ** Data *)

Module Transaction.
Record t : Type := mk {
  sender : text;        (* char sender[64] *)
  receiver : text;      (* char receiver[64] *)
  amount : float;       (* double *)
  timestamp : Z         (* time_t *)
}.

Definition set_sender (v : text) (tx : t) : t :=
  mk v (receiver tx) (amount tx) (timestamp tx).
End Transaction.

Module Block.
(** Where [struct Block] puts its first members on the target: [index] in
    bytes 0 to 3, [previous_hash] in bytes 4 to 36, then three bytes of
    padding, because a [Transaction] holds a [double] and is aligned to 8,
    and [transactions[0].sender] from byte 40.  So the character at
    position [PREVIOUS_HASH_REACH] of a text that starts at
    [previous_hash] is [transactions[0].sender[0]]. *)
Definition PREVIOUS_HASH_PADDING : nat := 3.
Definition PREVIOUS_HASH_REACH : nat :=
  HASH_LENGTH + 1 + PREVIOUS_HASH_PADDING.

(** A text field holds what the code reads there: the characters from the
    start of the field to the first NUL.  [strcpy], [strcmp] and [%s] do not
    stop at the end of an array, and [create_genesis_block] stores a text in
    [previous_hash] that is longer than the field.  [overrun] says that the
    text of [previous_hash] has no terminator inside the field and its
    padding: it then consists of the [PREVIOUS_HASH_REACH] characters that
    lie there followed by the text of [transactions[0].sender], with which
    it shares its bytes and its terminator.

    The [next] pointer is the list structure of the functional layer and
    a field of the cells of [Machine]. *)
Record t : Type := Build {
  index : Z;                          (* int *)
  previous_hash : text;               (* char[HASH_LENGTH + 1] *)
  transactions : list Transaction.t;  (* Transaction[MAX_TRANSACTIONS] *)
  transaction_count : Z;              (* int *)
  timestamp : Z;                      (* time_t *)
  current_hash : text;                (* char[HASH_LENGTH + 1] *)
  overrun : bool
}.

(** A block whose [previous_hash] ends inside its field. *)
Definition mk (index : Z) (previous_hash : text)
    (transactions : list Transaction.t) (transaction_count timestamp : Z)
    (current_hash : text) : t :=
  Build index previous_hash transactions transaction_count timestamp
    current_hash false.

Definition set_index (v : Z) (b : t) : t :=
  Build v (previous_hash b) (transactions b) (transaction_count b)
    (timestamp b) (current_hash b) (overrun b).
(** [previous_hash] holds [v], a text that ends before
    [transactions[0].sender]. *)
Definition set_previous_hash (v : text) (b : t) : t :=
  Build (index b) v (transactions b) (transaction_count b)
    (timestamp b) (current_hash b) false.
Definition set_transactions (v : list Transaction.t) (b : t) : t :=
  Build (index b) (previous_hash b) v (transaction_count b)
    (timestamp b) (current_hash b) (overrun b).
Definition set_transaction_count (v : Z) (b : t) : t :=
  Build (index b) (previous_hash b) (transactions b) v
    (timestamp b) (current_hash b) (overrun b).
Definition set_timestamp (v : Z) (b : t) : t :=
  Build (index b) (previous_hash b) (transactions b) (transaction_count b)
    v (current_hash b) (overrun b).
Definition set_current_hash (v : text) (b : t) : t :=
  Build (index b) (previous_hash b) (transactions b) (transaction_count b)
    (timestamp b) v (overrun b).

(** [previous_hash] holds [v], a text of at least [PREVIOUS_HASH_REACH]
    characters that ends in [transactions[0].sender]: the characters from
    position [PREVIOUS_HASH_REACH] on, and the terminator, are stored in
    that sender. *)
Definition overrun_previous_hash (v : text) (b : t) : t :=
  Build (index b) v
    (alter (Transaction.set_sender (drop PREVIOUS_HASH_REACH v)) 0%nat
       (transactions b))
    (transaction_count b) (timestamp b) (current_hash b) true.

(** [strcpy(b->previous_hash, v)] for a literal [v]: [strcpy] does not
    know the size of the field and stores all of [v] and the terminator,
    in the field and its padding if there is room, and on into
    [transactions[0].sender] if not. *)
Definition strcpy_previous_hash (v : text) (b : t) : t :=
  if (length v <? PREVIOUS_HASH_REACH)%nat then set_previous_hash v b
  else overrun_previous_hash v b.

(** What is read at [previous_hash] of a block with [overrun] once [sender]
    has been stored in [transactions[0].sender]. *)
Definition run_into_sender (sender : text) (b : t) : t :=
  Build (index b) (take PREVIOUS_HASH_REACH (previous_hash b) ++ sender)
    (transactions b) (transaction_count b) (timestamp b) (current_hash b)
    true.

(** The array has [MAX_TRANSACTIONS] slots. *)
Definition shaped (b : t) : Prop :=
  length (transactions b) = Z.to_nat MAX_TRANSACTIONS.

(** The transactions the block holds: the first [transaction_count]
    slots, the ones [print_block] reads. *)
Definition held (b : t) : list Transaction.t :=
  take (Z.to_nat (transaction_count b)) (transactions b).

(** The text of [previous_hash] lies in its field, as the declaration
    [char previous_hash[HASH_LENGTH + 1]] has it. *)
Definition fits (b : t) : Prop :=
  overrun b = false /\ (length (previous_hash b) <= HASH_LENGTH)%nat.

(** The text of [previous_hash] runs through the field and the padding
    into [transactions[0].sender]. *)
Definition overruns (b : t) : Prop :=
  overrun b = true /\
  (PREVIOUS_HASH_REACH <= length (previous_hash b))%nat /\
  Transaction.sender <$> transactions b !! 0%nat =
    Some (drop PREVIOUS_HASH_REACH (previous_hash b)).

(** The record describes a block in memory. *)
Definition laid_out (b : t) : Prop := fits b \/ overruns b.
End Block.

(** Lines written by [printf]. *)
Inductive output : Type :=
  | TransactionAdded (sender receiver : text) (amount : float)
      (* "Transaction added: %s -> %s (%.2f BTC)" *)
  | BlockFull         (* "Block full! Cannot add transaction." *)
  | GenesisCreated    (* "Genesis block created." *)
  | BlockAdded (index : Z)     (* "Block #%d added to blockchain." *)
  | HashMismatch (index : Z).  (* "WARNING: Block #%d hash mismatch!" *)

(** ** [simple_hash] *)

(** [c = *data++] with a signed [char]. *)
Definition char_to_int (c : ascii) : Z :=
  let n := Z.of_nat (nat_of_ascii c) in
  if n <? 128 then n else n - 256.

Definition ulong (z : Z) : Z := z mod 2 ^ ULONG_WIDTH.

(** One iteration: [hash = ((hash << 5) + hash) + c] in [unsigned long]. *)
Definition hash_step (hash : Z) (c : ascii) : Z :=
  ulong (ulong (ulong (Z.shiftl hash 5) + hash) + ulong (char_to_int c)).

Definition simple_hash (data : text) : Z :=
  fold_left hash_step data 5381.

(** ** [add_transaction] *)

Definition add_transaction (block : Block.t) (sender receiver : text)
    (amount : float) (now : Z) : option (Block.t * output) :=
  let count := Block.transaction_count block in
  if count <? MAX_TRANSACTIONS then
    if 0 <=? count then
      let tx := Transaction.mk (snprintf 64 sender) (snprintf 64 receiver)
                  amount now in
      let block' :=
        Block.set_transaction_count (count + 1)
          (Block.set_transactions
             (<[Z.to_nat count := tx]> (Block.transactions block)) block) in
      Some (if Block.overrun block && (count =? 0)
            then Block.run_into_sender (Transaction.sender tx) block'
            else block',
            TransactionAdded sender receiver amount)
    else None  (* store before the start of the block *)
  else Some (block, BlockFull).

(** The block after the stores of [add_transaction], the text of
    [previous_hash] apart. *)
Definition stored (block : Block.t) (sender receiver : text)
    (amount : float) (now : Z) : Block.t :=
  Block.set_transaction_count (Block.transaction_count block + 1)
    (Block.set_transactions
       (<[Z.to_nat (Block.transaction_count block) :=
            Transaction.mk (snprintf 64 sender) (snprintf 64 receiver)
              amount now]> (Block.transactions block)) block).

(** ** [calculate_block_hash] *)

Definition hash_data (block : Block.t) : text :=
  snprintf 256 (fmt_d (Block.index block) ++ Block.previous_hash block
                  ++ fmt_d (Block.timestamp block)).

Definition fingerprint (block : Block.t) : text :=
  snprintf HASH_LENGTH (fmt_lx (simple_hash (hash_data block))).

Definition calculate_block_hash (block : Block.t) : Block.t :=
  Block.set_current_hash (fingerprint block) block.

(** ** [create_genesis_block] *)

(** The literal copied into [previous_hash] of the first block: 38
    characters, where the field has room for [HASH_LENGTH]. *)
Definition GENESIS_PREVIOUS_HASH : text :=
  lit "00000000000000000000000000000000000000".

(** [fresh] is what [malloc] returned, [now] what [time(NULL)] returned.
    The [strcpy] stores 39 bytes from byte 4 of the block on: 33 in
    [previous_hash], 3 in the padding, and two zeros and the terminator in
    [transactions[0].sender]. *)
Definition create_genesis_block (fresh : Block.t) (now : Z)
    : list Block.t * list output :=
  let b := Block.set_index 0 fresh in
  let b := Block.strcpy_previous_hash GENESIS_PREVIOUS_HASH b in
  let b := Block.set_transaction_count 0 b in
  let b := Block.set_timestamp now b in
  let b := calculate_block_hash b in
  ([b], [GenesisCreated]).

(** ** [add_block] *)

Definition int_succ (i : Z) : option Z :=
  if i <? INT_MAX then Some (i + 1) else None.

(** [now] is the time at which the block is created, [now1] and [now2]
    the times at which its two sample transactions are stored.  The text
    copied into [previous_hash] comes from [current_hash], a field of the
    same size written with [snprintf] and the size [HASH_LENGTH]: it ends
    inside the field. *)
Definition add_block (blockchain : list Block.t) (fresh : Block.t)
    (now now1 now2 : Z) : option (list Block.t * list output) :=
  last_block ← last blockchain;
  i ← int_succ (Block.index last_block);
  let b := Block.set_index i fresh in
  let b := Block.set_previous_hash (Block.current_hash last_block) b in
  let b := Block.set_transaction_count 0 b in
  let b := Block.set_timestamp now b in
  '(b, o1) ← add_transaction b (lit "Alice") (lit "Bob") 1.5%float now1;
  '(b, o2) ← add_transaction b (lit "Charlie") (lit "Dave") 0.75%float now2;
  let b := calculate_block_hash b in
  Some (blockchain ++ [b], [o1; o2; BlockAdded (Block.index b)]).

(** ** [verify_blockchain] *)

(** The result is the returned [int] and the warning printed, if any. *)
Fixpoint verify_blockchain (blockchain : list Block.t) : Z * list output :=
  match blockchain with
  | [] => (1, [])
  | current :: rest =>
      match rest with
      | [] => (1, [])
      | next :: _ =>
          if decide (Block.previous_hash next = Block.current_hash current)
          then verify_blockchain rest
          else (0, [HashMismatch (Block.index next)])
      end
  end.

(** The block [add_block] appends after [tail]. *)
Definition appended (tail fresh : Block.t) (now now1 now2 : Z) : Block.t :=
  calculate_block_hash
    (Block.mk (Block.index tail + 1) (Block.current_hash tail)
       (<[1%nat := Transaction.mk (lit "Charlie") (lit "Dave") 0.75%float now2]>
          (<[0%nat := Transaction.mk (lit "Alice") (lit "Bob") 1.5%float now1]>
             (Block.transactions fresh)))
       2 now (Block.current_hash fresh)).

(** ** Chains the program can build *)

(** The chains reachable from [create_genesis_block] by [add_block]. *)
Inductive built : list Block.t -> Prop :=
  | built_genesis fresh now :
      built (create_genesis_block fresh now).1
  | built_add chain fresh now now1 now2 chain' outs :
      built chain ->
      add_block chain fresh now now1 now2 = Some (chain', outs) ->
      built chain'.

(** Neighbours agree: every block stores the fingerprint of the one before. *)
Fixpoint linked (chain : list Block.t) : Prop :=
  match chain with
  | [] => True
  | current :: rest =>
      match rest with
      | [] => True
      | next :: _ =>
          Block.previous_hash next = Block.current_hash current /\ linked rest
      end
  end.

(** Overwrite [previous_hash] of the block at position [k]. *)
Definition tamper (k : nat) (s : text) (chain : list Block.t)
    : list Block.t :=
  alter (Block.set_previous_hash s) k chain.

(** Calls of [add_transaction] on one block, one after the other; each
    attempt is (sender, receiver, amount, time of the call). *)
Fixpoint seed (b : Block.t) (txs : list (text * text * float * Z))
    : option (Block.t * list output) :=
  match txs with
  | [] => Some (b, [])
  | (s, r, a, t) :: txs' =>
      '(b', o) ← add_transaction b s r a t;
      '(b'', os) ← seed b' txs';
      Some (b'', o :: os)
  end.

(** The spec's [append_block(chain, transactions_to_seed)], written from
    the spec's words for comparison with [add_block]: a new block with
    [index = tail.index + 1] and [previous_fingerprint =
    tail.current_fingerprint], seeded with the caller's transactions, then
    fingerprinted and linked after the tail. *)
Definition spec_append_block (chain : list Block.t) (fresh : Block.t)
    (now : Z) (transactions_to_seed : list (text * text * float * Z))
    : option (list Block.t * list output) :=
  tail ← last chain;
  i ← int_succ (Block.index tail);
  let b := Block.set_index i fresh in
  let b := Block.set_previous_hash (Block.current_hash tail) b in
  let b := Block.set_transaction_count 0 b in
  let b := Block.set_timestamp now b in
  '(b, os) ← seed b transactions_to_seed;
  let b := calculate_block_hash b in
  Some (chain ++ [b], os ++ [BlockAdded (Block.index b)]).

(** The two transactions [add_block] stores. *)
Definition sample_transactions (now1 now2 : Z)
    : list (text * text * float * Z) :=
  [ (lit "Alice", lit "Bob", 1.5%float, now1);
    (lit "Charlie", lit "Dave", 0.75%float, now2) ].

(** ** The statement-level machine *)

Module Machine.

(** A [Block] in memory.  [hash_writes] is ghost state: the number of
    times [current_hash] of this block has been written. *)
Record Cell : Type := mkCell {
  blk : Block.t;
  next : option nat;     (* struct Block* next; None is NULL *)
  hash_writes : nat
}.

(** Memory, the variable [blockchain] of [main], the locals of
    [add_block], and the lines printed so far. *)
Record Config : Type := mkConfig {
  heap : list Cell;
  blockchain : option nat;
  last_block : option nat;
  new_block : option nat;
  out : list output
}.

Definition initial : Config := mkConfig [] None None None [].

Definition set_heap (h : list Cell) (cfg : Config) : Config :=
  mkConfig h (blockchain cfg) (last_block cfg) (new_block cfg) (out cfg).

(** A statement: [None] when its behaviour is undefined. *)
Definition stmt : Type := Config -> option Config.

Definition on_blk (f : Block.t -> Block.t) (c : Cell) : Cell :=
  mkCell (f (blk c)) (next c) (hash_writes c).

Definition set_next (q : option nat) (c : Cell) : Cell :=
  mkCell (blk c) q (hash_writes c).

(** [malloc]: a new cell at the end of the heap, contents indeterminate,
    its fingerprint never written. *)
Definition alloc (fresh : Cell) (h : list Cell) : list Cell * nat :=
  (h ++ [mkCell (blk fresh) (next fresh) 0], length h).

(** [ptr->field = ...]: update the cell [ptr] points to. *)
Definition store (ptr : Config -> option nat) (f : Cell -> Cell) : stmt :=
  fun cfg =>
    a ← ptr cfg;
    c ← heap cfg !! a;
    Some (set_heap (<[a := f c]> (heap cfg)) cfg).

Definition print (o : output) : stmt :=
  fun cfg =>
    Some (mkConfig (heap cfg) (blockchain cfg) (last_block cfg)
            (new_block cfg) (out cfg ++ [o])).

(** [calculate_block_hash(ptr)]: the one place that writes
    [current_hash]. *)
Definition call_calculate_block_hash (ptr : Config -> option nat) : stmt :=
  store ptr (fun c =>
    mkCell (calculate_block_hash (blk c)) (next c) (S (hash_writes c))).

Definition call_add_transaction (ptr : Config -> option nat)
    (sender receiver : text) (amount : float) (now : Z) : stmt :=
  fun cfg =>
    a ← ptr cfg;
    c ← heap cfg !! a;
    '(b, o) ← add_transaction (blk c) sender receiver amount now;
    Some (mkConfig (<[a := on_blk (fun _ => b) c]> (heap cfg))
            (blockchain cfg) (last_block cfg) (new_block cfg)
            (out cfg ++ [o])).

(** [*blockchain = (Block* )malloc(sizeof(Block))] *)
Definition malloc_blockchain (fresh : Cell) : stmt :=
  fun cfg =>
    let '(h, a) := alloc fresh (heap cfg) in
    Some (mkConfig h (Some a) (last_block cfg) (new_block cfg) (out cfg)).

(** [Block* new_block = (Block* )malloc(sizeof(Block))] *)
Definition malloc_new_block (fresh : Cell) : stmt :=
  fun cfg =>
    let '(h, a) := alloc fresh (heap cfg) in
    Some (mkConfig h (blockchain cfg) (last_block cfg) (Some a) (out cfg)).

(** [while (p->next != NULL) p = p->next;] with at most [fuel] iterations
    left. *)
Fixpoint follow (fuel : nat) (h : list Cell) (p : nat) : option nat :=
  match fuel with
  | O => None
  | S fuel' =>
      c ← h !! p;
      match next c with
      | None => Some p
      | Some q => follow fuel' h q
      end
  end.

(** [Block* last_block = *blockchain; while ...] *)
Definition find_last_block : stmt :=
  fun cfg =>
    p ← blockchain cfg;
    a ← follow (length (heap cfg)) (heap cfg) p;
    Some (mkConfig (heap cfg) (blockchain cfg) (Some a) (new_block cfg)
            (out cfg)).

(** [new_block->index = last_block->index + 1] *)
Definition assign_index : stmt :=
  fun cfg =>
    l ← last_block cfg;
    lc ← heap cfg !! l;
    i ← int_succ (Block.index (blk lc));
    store new_block (on_blk (Block.set_index i)) cfg.

(** [strcpy(new_block->previous_hash, last_block->current_hash)] *)
Definition copy_hash : stmt :=
  fun cfg =>
    l ← last_block cfg;
    lc ← heap cfg !! l;
    store new_block
      (on_blk (Block.set_previous_hash (Block.current_hash (blk lc)))) cfg.

(** [last_block->next = new_block] *)
Definition link : stmt :=
  fun cfg => store last_block (set_next (new_block cfg)) cfg.

(** [printf("Block #%d added to blockchain.\n", new_block->index)] *)
Definition print_block_added : stmt :=
  fun cfg =>
    a ← new_block cfg;
    c ← heap cfg !! a;
    print (BlockAdded (Block.index (blk c))) cfg.

(** The body of [create_genesis_block], statement by statement. *)
Definition create_genesis_block_body (fresh : Cell) (now : Z) : list stmt :=
  [ malloc_blockchain fresh;
    store blockchain (on_blk (Block.set_index 0));
    store blockchain
      (on_blk (Block.strcpy_previous_hash GENESIS_PREVIOUS_HASH));
    store blockchain (on_blk (Block.set_transaction_count 0));
    store blockchain (on_blk (Block.set_timestamp now));
    store blockchain (set_next None);
    call_calculate_block_hash blockchain;
    print GenesisCreated ].

(** The body of [add_block], statement by statement. *)
Definition add_block_body (fresh : Cell) (now now1 now2 : Z) : list stmt :=
  [ find_last_block;
    malloc_new_block fresh;
    assign_index;
    copy_hash;
    store new_block (on_blk (Block.set_transaction_count 0));
    store new_block (on_blk (Block.set_timestamp now));
    store new_block (set_next None);
    link;
    call_add_transaction new_block (lit "Alice") (lit "Bob") 1.5%float now1;
    call_add_transaction new_block (lit "Charlie") (lit "Dave") 0.75%float
      now2;
    call_calculate_block_hash new_block;
    print_block_added ].

(** Run a body; the result lists the configuration after each
    statement. *)
Fixpoint run (body : list stmt) (cfg : Config) : option (list Config) :=
  match body with
  | [] => Some []
  | s :: body' =>
      cfg' ← s cfg;
      rest ← run body' cfg';
      Some (cfg' :: rest)
  end.

(** The configuration in which a body returns. *)
Definition exec (body : list stmt) (cfg : Config) : option Config :=
  tr ← run body cfg;
  last tr.

(** Addresses met from [p] along [next]. *)
Fixpoint walk (fuel : nat) (h : list Cell) (p : option nat) : list nat :=
  match fuel, p with
  | S fuel', Some a =>
      match h !! a with
      | Some c => a :: walk fuel' h (next c)
      | None => []
      end
  | _, _ => []
  end.

(** The blocks linked into the chain that starts at [blockchain]. *)
Definition chain_addrs (cfg : Config) : list nat :=
  walk (length (heap cfg)) (heap cfg) (blockchain cfg).

(** The chain of a configuration, as the functional layer sees it. *)
Definition chain_of (cfg : Config) : list Block.t :=
  omap (fun a => blk <$> heap cfg !! a) (chain_addrs cfg).

(** Configurations between two calls. *)
Inductive at_rest : Config -> Prop :=
  | rest_genesis fresh now cfg :
      exec (create_genesis_block_body fresh now) initial = Some cfg ->
      at_rest cfg
  | rest_add cfg fresh now now1 now2 cfg' :
      at_rest cfg ->
      exec (add_block_body fresh now now1 now2) cfg = Some cfg' ->
      at_rest cfg'.

(** Configurations after any statement of any call. *)
Inductive reachable : Config -> Prop :=
  | reach_genesis fresh now tr cfg :
      run (create_genesis_block_body fresh now) initial = Some tr ->
      cfg ∈ tr ->
      reachable cfg
  | reach_add cfg0 fresh now now1 now2 tr cfg :
      at_rest cfg0 ->
      run (add_block_body fresh now now1 now2) cfg0 = Some tr ->
      cfg ∈ tr ->
      reachable cfg.

(** The block at [a] is the [next] of some block of the chain. *)
Definition linked_as_successor (cfg : Config) (a : nat) : Prop :=
  exists p c, p ∈ chain_addrs cfg /\ heap cfg !! p = Some c /\ next c = Some a.

(** The fingerprint of the block at [a] has not been written. *)
Definition unassigned (cfg : Config) (a : nat) : Prop :=
  exists c, heap cfg !! a = Some c /\ hash_writes c = 0%nat.

(** Heaps as the program lays them out: the block at [a + 1] is the
    [next] of the block at [a], and the last block has none. *)
Definition chained (h : list Cell) : Prop :=
  forall a c, h !! a = Some c ->
    next c = if decide (S a < length h)%nat then Some (S a) else None.

(** What holds between calls: the chain starts at address 0, runs through
    the whole heap, and every block carries the fingerprint of its fields,
    written once. *)
Definition settled (cfg : Config) : Prop :=
  heap cfg <> [] /\ blockchain cfg = Some 0%nat /\ chained (heap cfg) /\
  Forall (fun c => hash_writes c = 1%nat /\
                   Block.current_hash (blk c) = fingerprint (blk c))
    (heap cfg).

(** The configurations [create_genesis_block] goes through, written out. *)
Definition create_genesis_block_trace (fresh : Cell) (now : Z)
    : list Config :=
  let cfg k o := mkConfig [k] (Some 0%nat) None None o in
  let k0 := mkCell (blk fresh) (next fresh) 0 in
  let k1 := on_blk (Block.set_index 0) k0 in
  let k2 := on_blk (Block.strcpy_previous_hash GENESIS_PREVIOUS_HASH) k1 in
  let k3 := on_blk (Block.set_transaction_count 0) k2 in
  let k4 := on_blk (Block.set_timestamp now) k3 in
  let k5 := set_next None k4 in
  let k6 := mkCell (calculate_block_hash (blk k5)) None 1 in
  [ cfg k0 []; cfg k1 []; cfg k2 []; cfg k3 []; cfg k4 []; cfg k5 [];
    cfg k6 []; cfg k6 [GenesisCreated] ].

(** The versions of the new block during [add_block]: as allocated, after
    each of the five stores, after each of the two transactions, and after
    the fingerprint is written. *)
Definition new_block_versions (l fresh : Cell) (now now1 now2 : Z)
    : list Cell :=
  let k0 := mkCell (blk fresh) (next fresh) 0 in
  let k1 := on_blk (Block.set_index (Block.index (blk l) + 1)) k0 in
  let k2 :=
    on_blk (Block.set_previous_hash (Block.current_hash (blk l))) k1 in
  let k3 := on_blk (Block.set_transaction_count 0) k2 in
  let k4 := on_blk (Block.set_timestamp now) k3 in
  let k5 := set_next None k4 in
  let k6 :=
    on_blk (fun b =>
      Block.set_transaction_count 1
        (Block.set_transactions
           (<[0%nat := Transaction.mk (lit "Alice") (lit "Bob") 1.5%float
                         now1]> (Block.transactions b)) b)) k5 in
  let k7 :=
    on_blk (fun b =>
      Block.set_transaction_count 2
        (Block.set_transactions
           (<[1%nat := Transaction.mk (lit "Charlie") (lit "Dave")
                         0.75%float now2]> (Block.transactions b)) b)) k6 in
  let k8 := mkCell (calculate_block_hash (blk k7)) None 1 in
  [k0; k1; k2; k3; k4; k5; k6; k7; k8].

(** The configurations [add_block] goes through from a heap [h ++ [l]]
    whose last block is [l], written out: one per statement of
    [add_block_body]. *)
Definition add_block_trace (h : list Cell) (l fresh : Cell)
    (nb : option nat) (o : list output) (now now1 now2 : Z) : list Config :=
  let n := length h in
  let cfg tl nb o := mkConfig (h ++ tl) (Some 0%nat) (Some n) nb o in
  let l' := set_next (Some (S n)) l in
  let o1 := o ++ [TransactionAdded (lit "Alice") (lit "Bob") 1.5%float] in
  let o2 :=
    o1 ++ [TransactionAdded (lit "Charlie") (lit "Dave") 0.75%float] in
  match new_block_versions l fresh now now1 now2 with
  | [k0; k1; k2; k3; k4; k5; k6; k7; k8] =>
      [ cfg [l] nb o;
        cfg [l; k0] (Some (S n)) o;
        cfg [l; k1] (Some (S n)) o;
        cfg [l; k2] (Some (S n)) o;
        cfg [l; k3] (Some (S n)) o;
        cfg [l; k4] (Some (S n)) o;
        cfg [l; k5] (Some (S n)) o;
        cfg [l'; k5] (Some (S n)) o;
        cfg [l'; k6] (Some (S n)) o1;
        cfg [l'; k7] (Some (S n)) o2;
        cfg [l'; k8] (Some (S n)) o2;
        cfg [l'; k8] (Some (S n))
          (o2 ++ [BlockAdded (Block.index (blk l) + 1)]) ]
  | _ => []
  end.

End Machine.

(** ** A run of the program *)

(** [n] calls of [add_block], every clock reading [t]. *)
Fixpoint add_blocks (n : nat) (chain : list Block.t) (fresh : Block.t) (t : Z)
    : option (list Block.t) :=
  match n with
  | O => Some chain
  | S n' =>
      '(chain', _) ← add_block chain fresh t t t;
      add_blocks n' chain' fresh t
  end.

(** Memory as [malloc] may return it: ten zeroed slots, empty strings. *)
Definition demo_fresh : Block.t :=
  Block.mk 0 [] (replicate 10 (Transaction.mk [] [] 0%float 0)) 0 0 [].

(** A reading of the clock on 2026-02-10. *)
Definition demo_time : Z := 1770700011.

Definition demo_genesis : list Block.t :=
  (create_genesis_block demo_fresh demo_time).1.

(** Genesis and two appended blocks. *)
Definition demo_chain : list Block.t :=
  default [] (add_blocks 2 demo_genesis demo_fresh demo_time).

(** A block filled to capacity: ten stored transactions. *)
Definition demo_full_block : Block.t :=
  default demo_fresh
    (fst <$> seed demo_fresh
       (replicate 10 (lit "Alice", lit "Bob", 1.5%float, demo_time))).

(** The same run on the machine: the configuration in which
    [create_genesis_block] returns, the configurations the first call of
    [add_block] goes through, and among them the one just after
    [last_block->next = new_block]. *)
Definition demo_cell : Machine.Cell := Machine.mkCell demo_fresh None 0.

Definition demo_rest : Machine.Config :=
  default Machine.initial
    (Machine.exec (Machine.create_genesis_block_body demo_cell demo_time)
       Machine.initial).

Definition demo_trace : list Machine.Config :=
  default []
    (Machine.run
       (Machine.add_block_body demo_cell demo_time demo_time demo_time)
       demo_rest).

Definition demo_linked : Machine.Config :=
  default Machine.initial (demo_trace !! 7%nat).

(** ** [print_block] and [print_blockchain] *)

(** Lines written by [print_block] and [print_blockchain]. *)
Inductive printed : Type :=
  | BlockHeader (index : Z)            (* "=== BLOCK #%d ===" *)
  | PreviousHashLine (hash : text)     (* "Previous Hash: %s" *)
  | CurrentHashLine (hash : text)      (* "Current Hash: %s" *)
  | TimestampLine (timestamp : Z)      (* "Timestamp: %ld" *)
  | TransactionsLine (count : Z)       (* "Transactions: %d" *)
  | TransactionLine (sender receiver : text) (amount : float)
      (* "  %s -> %s (%.2f BTC)" *)
  | BlockFooter                        (* "===================" *)
  | TotalBlocks (count : Z).           (* "Total blocks in blockchain: %d" *)

Definition transaction_line (tx : Transaction.t) : printed :=
  TransactionLine (Transaction.sender tx) (Transaction.receiver tx)
    (Transaction.amount tx).

(** [for (int i = ...; i < count; i++) printf(..., transactions[i]...)],
    with [slots] the array from position [i] on; reading past the array is
    undefined. *)
Fixpoint print_transactions (slots : list Transaction.t) (i count : Z)
    : option (list printed) :=
  if i <? count then
    match slots with
    | [] => None
    | tx :: slots' =>
        lines ← print_transactions slots' (i + 1) count;
        Some (transaction_line tx :: lines)
    end
  else Some [].

Definition print_block (block : Block.t) : option (list printed) :=
  lines ← print_transactions (Block.transactions block) 0
             (Block.transaction_count block);
  Some ([ BlockHeader (Block.index block);
          PreviousHashLine (Block.previous_hash block);
          CurrentHashLine (Block.current_hash block);
          TimestampLine (Block.timestamp block);
          TransactionsLine (Block.transaction_count block) ]
        ++ lines ++ [BlockFooter]).

(** The loop of [print_blockchain] from block [current] on, [count] blocks
    printed so far. *)
Fixpoint print_blocks (blockchain : list Block.t) (count : Z)
    : option (list printed) :=
  match blockchain with
  | [] => Some [TotalBlocks count]
  | current :: rest =>
      lines ← print_block current;
      count' ← int_succ count;
      more ← print_blocks rest count';
      Some (lines ++ more)
  end.

Definition print_blockchain (blockchain : list Block.t)
    : option (list printed) :=
  print_blocks blockchain 0.

(** ** [free_blockchain] *)

(** [free_blockchain] on the heap of [Machine]: [freed] lists the addresses
    already given back, in the order of the calls of [free].  Each round
    reads [current->next] and then frees [current]; touching a block that is
    already freed is undefined.  [fuel] bounds the rounds; the number of
    blocks of the heap is enough, since every round frees another block. *)
Fixpoint free_from (fuel : nat) (h : list Machine.Cell) (freed : list nat)
    (current : option nat) : option (list nat) :=
  match current with
  | None => Some freed
  | Some a =>
      match fuel with
      | O => None
      | S fuel' =>
          if decide (a ∈ freed) then None
          else
            c ← h !! a;
            free_from fuel' h (freed ++ [a]) (Machine.next c)
      end
  end.

Definition free_blockchain (h : list Machine.Cell) (freed : list nat)
    (blockchain : option nat) : option (list nat) :=
  free_from (length h) h freed blockchain.

(** ** [cpp/erc20_interface.cpp]: the token contract *)

Module TokenContract.

(** [using address = std::string]. *)
Definition address : Type := string.

(** The file uses a type [uint256_t] that it does not declare.  It is taken
    as what its name says: the unsigned integers of 256 bits, with
    arithmetic modulo [2 ^ 256]. *)
Definition UINT256_MODULUS : Z := 2 ^ 256.

Definition uint256 (z : Z) : Z := z mod UINT256_MODULUS.

(** The private members of [class TokenContract]; the two [std::map]s are
    finite maps, a missing key standing for no entry. *)
Record t : Type := mk {
  _name : string;
  _symbol : string;
  _decimals : Z;                                (* uint8_t *)
  _totalSupply : Z;                             (* uint256_t *)
  _balances : gmap address Z;
  _allowances : gmap address (gmap address Z)
}.

Definition set_balances (m : gmap address Z) (c : t) : t :=
  mk (_name c) (_symbol c) (_decimals c) (_totalSupply c) m (_allowances c).

Definition set_allowances (m : gmap address (gmap address Z)) (c : t) : t :=
  mk (_name c) (_symbol c) (_decimals c) (_totalSupply c) (_balances c) m.

(** Lines written to [std::cout]. *)
Inductive line : Type :=
  | TokenCreated (name symbol : string)
  | InitialSupply (supply : Z)
  | ApprovalFailed              (* "Approval failed: Insufficient balance" *)
  | Approved (amount : Z) (spender : address)
  | TransferFailedBalance       (* "Transfer failed: Insufficient balance" *)
  | TransferFailedAllowance     (* "Transfer failed: Insufficient allowance" *)
  | Transfered (amount : Z) (sender to : address)     (* by [transfer] *)
  | Transferred (amount : Z) (from to : address).     (* by [transferFrom] *)

(** [msgSender()] returns the same address whoever calls. *)
Definition msgSender : address := "0x0"%string.

(** The constructor: the whole supply goes to ["0x0"]. *)
Definition create (name symbol : string) (decimals initialSupply : Z)
    : t * list line :=
  (mk name symbol decimals initialSupply
      (<["0x0"%string := initialSupply]> ∅) ∅,
   [TokenCreated name symbol; InitialSupply initialSupply]).

Definition totalSupply (c : t) : Z := _totalSupply c.

(** [find], and 0 when the key is absent. *)
Definition balanceOf (c : t) (owner : address) : Z :=
  match _balances c !! owner with
  | Some v => v
  | None => 0
  end.

Definition allowance (c : t) (owner spender : address) : Z :=
  match _allowances c !! owner with
  | Some of_owner =>
      match of_owner !! spender with
      | Some v => v
      | None => 0
      end
  | None => 0
  end.

(** [m[owner][spender] = v]: [operator[]] makes the inner map when the
    owner has none. *)
Definition store_allowance (owner spender : address) (v : Z)
    (m : gmap address (gmap address Z)) : gmap address (gmap address Z) :=
  <[owner := <[spender := v]> (default ∅ (m !! owner))]> m.

Definition approve (c : t) (spender : address) (amount : Z)
    : bool * t * list line :=
  if balanceOf c msgSender <? amount then (false, c, [ApprovalFailed])
  else
    (true,
     set_allowances (store_allowance msgSender spender amount (_allowances c))
       c,
     [Approved amount spender]).

(** The two stores shared by [transfer] and [transferFrom]: each reads the
    balance again before it writes. *)
Definition move (from to : address) (amount : Z) (c : t) : t :=
  let c1 :=
    set_balances
      (<[from := uint256 (balanceOf c from - amount)]> (_balances c)) c in
  set_balances
    (<[to := uint256 (balanceOf c1 to + amount)]> (_balances c1)) c1.

Definition transfer (c : t) (to : address) (amount : Z)
    : bool * t * list line :=
  let sender := msgSender in
  if balanceOf c sender <? amount then (false, c, [TransferFailedBalance])
  else (true, move sender to amount c, [Transfered amount sender to]).

Definition transferFrom (c : t) (from to : address) (amount : Z)
    : bool * t * list line :=
  let spender := msgSender in
  if allowance c from spender <? amount
  then (false, c, [TransferFailedAllowance])
  else if balanceOf c from <? amount
  then (false, c, [TransferFailedBalance])
  else
    let c1 :=
      set_allowances
        (store_allowance from spender
           (uint256 (allowance c from spender - amount)) (_allowances c))
        c in
    (true, move from to amount c1, [Transferred amount from to]).

(** The sum of all balances. *)
Definition circulating (c : t) : Z :=
  map_fold (fun _ v acc => v + acc) 0 (_balances c).

(** A value of type [uint256_t]. *)
Definition is_uint256 (z : Z) : Prop := 0 <= z < UINT256_MODULUS.

(** The states a contract goes through: made by the constructor, then
    changed by calls of [approve], [transfer] and [transferFrom]. *)
Inductive reachable : t -> Prop :=
  | reach_create name symbol decimals initialSupply :
      is_uint256 initialSupply ->
      reachable (create name symbol decimals initialSupply).1
  | reach_approve c spender amount :
      reachable c -> is_uint256 amount ->
      reachable (approve c spender amount).1.2
  | reach_transfer c to amount :
      reachable c -> is_uint256 amount ->
      reachable (transfer c to amount).1.2
  | reach_transferFrom c from to amount :
      reachable c -> is_uint256 amount ->
      reachable (transferFrom c from to amount).1.2.

(** The sum of the values of a map, and the value at a key, 0 when the
    key is absent. *)
Definition sum_of (m : gmap address Z) : Z :=
  map_fold (fun _ v acc => v + acc) 0 m.

Definition get (m : gmap address Z) (k : address) : Z :=
  match m !! k with Some v => v | None => 0 end.

Definition nonneg (m : gmap address Z) : Prop :=
  forall k x, m !! k = Some x -> 0 <= x.

(** What holds of every state the contract goes through. *)
Definition sound (c : t) : Prop :=
  nonneg (_balances c) /\
  circulating c = totalSupply c /\
  is_uint256 (totalSupply c) /\
  (forall owner spender, is_uint256 (allowance c owner spender)) /\
  (forall owner spender, owner <> msgSender -> allowance c owner spender = 0).

End TokenContract.

(** The contract of [main]: a million tokens, and the same after the owner
    has approved itself for 500. *)
Definition demo_token : TokenContract.t :=
  (TokenContract.create "DemoToken" "DTK" 18 1000000).1.

Definition demo_token_approved : TokenContract.t :=
  (TokenContract.approve demo_token "0x0" 500).1.2.

(** ** Reference functions *)

(** The hash with unbounded integers: multiply by 33, add the character. *)
Definition djb2 (data : text) : Z :=
  fold_left (fun h c => 33 * h + char_to_int c) data 5381.

(** The value of a hexadecimal digit: its place in [HEX_DIGITS]. *)
Fixpoint position (c : ascii) (l : text) : Z :=
  match l with
  | [] => 0
  | d :: l' => if decide (d = c) then 0 else 1 + position c l'
  end.

(** The number a text of hexadecimal digits stands for. *)
Definition hex_value (s : text) : Z :=
  fold_left (fun acc c => 16 * acc + position c HEX_DIGITS) s 0.

(** What [verify_blockchain] and [calculate_block_hash] read of a block. *)
Definition hashed (b : Block.t) : Z * text * text :=
  (Block.index b, Block.previous_hash b, Block.current_hash b).

(** * Properties *)

(** ** Fingerprints *)

Lemma hex_digits_length fuel n :
  0 <= n < 16 ^ Z.of_nat (S fuel) ->
  (1 <= length (hex_digits (S fuel) n) <= S fuel)%nat.
Proof.
  revert n. induction fuel as [|fuel IH]; intros n Hn.
  - change (16 ^ Z.of_nat 1) with 16 in Hn. cbn [hex_digits].
    destruct (Z.ltb_spec n 16); [simpl; lia | lia].
  - remember (S fuel) as k. cbn [hex_digits].
    destruct (Z.ltb_spec n 16) as [Hlt|Hge].
    + simpl. lia.
    + rewrite length_app. simpl.
      assert (0 <= n / 16 < 16 ^ Z.of_nat k) as Hq.
      { rewrite Nat2Z.inj_succ, Z.pow_succ_r in Hn by lia.
        split; [apply Z.div_pos; lia|].
        apply Z.div_lt_upper_bound; lia. }
      specialize (IH _ Hq). lia.
Qed.

Lemma ulong_range z : 0 <= ulong z < 2 ^ 64.
Proof. unfold ulong, ULONG_WIDTH. apply Z.mod_pos_bound. lia. Qed.

Lemma simple_hash_range data : 0 <= simple_hash data < 2 ^ 64.
Proof.
  unfold simple_hash.
  assert (0 <= 5381 < 2 ^ 64) as H0 by lia.
  revert H0. generalize 5381. induction data as [|c data IH]; intros h Hh.
  - exact Hh.
  - simpl. apply IH. unfold hash_step. apply ulong_range.
Qed.

Lemma fingerprint_length b : (1 <= length (fingerprint b) <= 16)%nat.
Proof.
  unfold fingerprint, snprintf, fmt_lx, HASH_LENGTH.
  pose proof (hex_digits_length 15 (simple_hash (hash_data b))) as H.
  rewrite length_take.
  assert (0 <= simple_hash (hash_data b) < 16 ^ Z.of_nat 16) as Hr.
  { pose proof (simple_hash_range (hash_data b)).
    change (16 ^ Z.of_nat 16) with (2 ^ 64) in *. lia. }
  specialize (H Hr). lia.
Qed.

(** ** [add_transaction] on a block with room *)

Lemma add_transaction_some block sender receiver amount now :
  0 <= Block.transaction_count block < MAX_TRANSACTIONS ->
  add_transaction block sender receiver amount now =
    Some (if Block.overrun block && (Block.transaction_count block =? 0)
          then Block.run_into_sender (snprintf 64 sender)
                 (stored block sender receiver amount now)
          else stored block sender receiver amount now,
          TransactionAdded sender receiver amount).
Proof.
  intros [Hlo Hhi]. unfold add_transaction.
  destruct (Z.ltb_spec (Block.transaction_count block) MAX_TRANSACTIONS);
    [|lia].
  destruct (Z.leb_spec 0 (Block.transaction_count block)); [reflexivity|lia].
Qed.

Lemma add_transaction_room block sender receiver amount now :
  0 <= Block.transaction_count block < MAX_TRANSACTIONS ->
  Block.overrun block = false \/ Block.transaction_count block <> 0 ->
  add_transaction block sender receiver amount now =
    Some (Block.set_transaction_count (Block.transaction_count block + 1)
            (Block.set_transactions
               (<[Z.to_nat (Block.transaction_count block) :=
                    Transaction.mk (snprintf 64 sender) (snprintf 64 receiver)
                      amount now]> (Block.transactions block)) block),
          TransactionAdded sender receiver amount).
Proof.
  intros Hc Ho. rewrite add_transaction_some by exact Hc.
  destruct Ho as [->|Hn]; [reflexivity|].
  destruct (Z.eqb_spec (Block.transaction_count block) 0) as [E|_];
    [contradiction|].
  rewrite andb_false_r. reflexivity.
Qed.

(** Whatever the text of [previous_hash], the fields below it are
    stored in the same way. *)
Lemma add_transaction_stores block sender receiver amount now :
  0 <= Block.transaction_count block < MAX_TRANSACTIONS ->
  exists block',
    add_transaction block sender receiver amount now =
      Some (block', TransactionAdded sender receiver amount) /\
    Block.transaction_count block' = Block.transaction_count block + 1 /\
    Block.transactions block' =
      <[Z.to_nat (Block.transaction_count block) :=
          Transaction.mk (snprintf 64 sender) (snprintf 64 receiver)
            amount now]> (Block.transactions block) /\
    Block.index block' = Block.index block /\
    Block.timestamp block' = Block.timestamp block /\
    Block.current_hash block' = Block.current_hash block.
Proof.
  intros Hc. rewrite add_transaction_some by exact Hc.
  eexists. split; [reflexivity|].
  destruct (Block.overrun block && (Block.transaction_count block =? 0));
    repeat split.
Qed.

Lemma add_transaction_full block sender receiver amount now :
  MAX_TRANSACTIONS <= Block.transaction_count block ->
  add_transaction block sender receiver amount now = Some (block, BlockFull).
Proof.
  intros Hfull. unfold add_transaction.
  destruct (Z.ltb_spec (Block.transaction_count block) MAX_TRANSACTIONS);
    [lia|reflexivity].
Qed.

(** ** What [add_block] returns *)

Lemma add_block_some chain tail fresh now now1 now2 :
  last chain = Some tail ->
  Block.index tail < INT_MAX ->
  add_block chain fresh now now1 now2 =
    Some (chain ++ [appended tail fresh now now1 now2],
          [TransactionAdded (lit "Alice") (lit "Bob") 1.5%float;
           TransactionAdded (lit "Charlie") (lit "Dave") 0.75%float;
           BlockAdded (Block.index tail + 1)]).
Proof.
  intros Hlast Hidx. unfold add_block, int_succ. rewrite Hlast. simpl.
  destruct (Z.ltb_spec (Block.index tail) INT_MAX); [|lia].
  reflexivity.
Qed.

Lemma add_block_inv chain fresh now now1 now2 chain' outs :
  add_block chain fresh now now1 now2 = Some (chain', outs) ->
  exists tail,
    last chain = Some tail /\ Block.index tail < INT_MAX /\
    chain' = chain ++ [appended tail fresh now now1 now2] /\
    outs = [TransactionAdded (lit "Alice") (lit "Bob") 1.5%float;
            TransactionAdded (lit "Charlie") (lit "Dave") 0.75%float;
            BlockAdded (Block.index tail + 1)].
Proof.
  intros H. destruct (last chain) as [tail|] eqn:Hlast.
  - destruct (Z.ltb_spec (Block.index tail) INT_MAX) as [Hlt|Hge].
    + rewrite (add_block_some _ _ _ _ _ _ Hlast Hlt) in H.
      injection H as <- <-. exists tail. auto.
    + unfold add_block, int_succ in H. rewrite Hlast in H. simpl in H.
      destruct (Z.ltb_spec (Block.index tail) INT_MAX); [lia|discriminate].
  - unfold add_block in H. rewrite Hlast in H. discriminate.
Qed.

Lemma appended_fields tail fresh now now1 now2 :
  let b := appended tail fresh now now1 now2 in
  Block.index b = Block.index tail + 1 /\
  Block.previous_hash b = Block.current_hash tail /\
  Block.transaction_count b = 2 /\
  Block.timestamp b = now /\
  Block.current_hash b = fingerprint b.
Proof. repeat split. Qed.

(** ** Linked chains and [verify_blockchain] *)

Lemma linked_cons current next rest :
  linked (current :: next :: rest) <->
  Block.previous_hash next = Block.current_hash current /\
  linked (next :: rest).
Proof. reflexivity. Qed.

Lemma linked_snoc chain tail b :
  last chain = Some tail ->
  linked chain ->
  Block.previous_hash b = Block.current_hash tail ->
  linked (chain ++ [b]).
Proof.
  induction chain as [|current rest IH]; [discriminate|].
  destruct rest as [|next rest'].
  - intros [= ->] _ Hb. simpl. auto.
  - intros Hlast [Heq Hrest] Hb.
    change (linked (current :: next :: (rest' ++ [b]))).
    apply linked_cons. split; [exact Heq|].
    apply IH; assumption.
Qed.

Lemma linked_app_l front back : linked (front ++ back) -> linked front.
Proof.
  induction front as [|current rest IH]; [intros; exact I|].
  destruct rest as [|next rest']; [intros; exact I|].
  intros [Heq Hrest]. apply linked_cons. auto.
Qed.

Lemma verify_linked chain :
  linked chain -> verify_blockchain chain = (1, []).
Proof.
  induction chain as [|current rest IH]; [reflexivity|].
  destruct rest as [|next rest']; [reflexivity|].
  intros [Heq Hrest]. cbn [verify_blockchain].
  rewrite decide_True by exact Heq. apply IH, Hrest.
Qed.

Lemma verify_first_mismatch front p b back :
  linked (front ++ [p]) ->
  Block.previous_hash b <> Block.current_hash p ->
  verify_blockchain (front ++ p :: b :: back) =
    (0, [HashMismatch (Block.index b)]).
Proof.
  induction front as [|current rest IH]; intros Hl Hne.
  - cbn [app verify_blockchain]. rewrite decide_False by exact Hne.
    reflexivity.
  - destruct rest as [|next rest'].
    + destruct Hl as [Heq _]. cbn [app verify_blockchain] in *.
      rewrite decide_True by exact Heq.
      rewrite decide_False by exact Hne. reflexivity.
    + destruct Hl as [Heq Hrest].
      change (verify_blockchain
                (current :: next :: (rest' ++ p :: b :: back)) =
              (0, [HashMismatch (Block.index b)])).
      cbn [verify_blockchain]. rewrite decide_True by exact Heq.
      apply (IH Hrest Hne).
Qed.

(** A chain with a mismatch somewhere splits at its first mismatch. *)
Lemma first_mismatch chain i p b :
  chain !! i = Some p -> chain !! S i = Some b ->
  Block.previous_hash b <> Block.current_hash p ->
  exists front p' b' back,
    chain = front ++ p' :: b' :: back /\ (length front <= i)%nat /\
    linked (front ++ [p']) /\
    Block.previous_hash b' <> Block.current_hash p'.
Proof.
  revert i. induction chain as [|current rest IH]; intros i Hp Hb Hne;
    [discriminate|].
  destruct rest as [|next rest']; [discriminate|].
  destruct (decide (Block.previous_hash next = Block.current_hash current))
    as [Heq|Hneq].
  - destruct i as [|i].
    + simpl in Hp, Hb. congruence.
    + destruct (IH i Hp Hb Hne)
        as (front & p' & b' & back & E & Hlen & Hl & Hm).
      exists (current :: front), p', b', back.
      split; [simpl; rewrite <- E; reflexivity|].
      split; [simpl; lia|]. split; [|exact Hm].
      destruct front as [|f front']; simpl in E; injection E as <- _.
      * simpl. auto.
      * change (linked (current :: next :: (front' ++ [p']))).
        apply linked_cons. auto.
  - exists [], current, next, rest'. repeat split; auto. simpl. lia.
Qed.

(** ** Invariants of built chains *)

Lemma built_inv (P : list Block.t -> Prop) :
  (forall fresh now, P (create_genesis_block fresh now).1) ->
  (forall chain tail fresh now now1 now2,
     built chain -> P chain -> last chain = Some tail ->
     Block.index tail < INT_MAX ->
     P (chain ++ [appended tail fresh now now1 now2])) ->
  forall chain, built chain -> P chain.
Proof.
  intros Hgen Hadd chain Hb.
  induction Hb as [|chain ? ? ? ? chain' outs Hb IH Heq].
  - apply Hgen.
  - destruct (add_block_inv _ _ _ _ _ _ _ Heq)
      as (tail & Hlast & Hidx & -> & _).
    apply Hadd; assumption.
Qed.

Lemma built_linked chain : built chain -> linked chain.
Proof.
  apply built_inv.
  - intros; exact I.
  - intros ? tail ? ? ? ? _ Hl Hlast _.
    apply (linked_snoc _ tail); auto.
Qed.

Lemma built_indexed chain :
  built chain ->
  forall i b, chain !! i = Some b -> Block.index b = Z.of_nat i.
Proof.
  revert chain. apply (built_inv (fun chain =>
    forall i b, chain !! i = Some b -> Block.index b = Z.of_nat i)).
  - intros fresh now [|i] b Hi; simpl in Hi; [|discriminate].
    injection Hi as <-. reflexivity.
  - intros chain tail fresh now now1 now2 _ IH Hlast _ i b Hi.
    apply lookup_app_Some in Hi as [Hi|[Hlen Hi]]; [eauto|].
    rewrite last_lookup in Hlast.
    pose proof (lookup_lt_Some _ _ _ Hlast) as Hlt. apply IH in Hlast.
    destruct (i - length chain)%nat as [|k] eqn:Hk; [|discriminate].
    injection Hi as <-. simpl. lia.
Qed.

Lemma built_fingerprinted chain :
  built chain ->
  Forall (fun b => Block.current_hash b = fingerprint b) chain.
Proof.
  apply built_inv.
  - intros. repeat constructor.
  - intros. apply Forall_app. split; [assumption|]. repeat constructor.
Qed.

Lemma built_head chain :
  built chain ->
  exists fresh now rest, chain = (create_genesis_block fresh now).1 ++ rest.
Proof.
  revert chain. apply (built_inv (fun chain => exists fresh now rest,
    chain = (create_genesis_block fresh now).1 ++ rest)).
  - intros fresh now. exists fresh, now, []. reflexivity.
  - intros chain tail fresh now now1 now2 _ (f & n & rest & ->) _ _.
    exists f, n, (rest ++ [appended tail fresh now now1 now2]).
    rewrite <- app_assoc. reflexivity.
Qed.

Lemma built_indices chain :
  built chain ->
  Block.index <$> chain = Z.of_nat <$> seq 0 (length chain).
Proof.
  intros Hb. apply list_eq. intros i.
  rewrite !list_lookup_fmap.
  destruct (chain !! i) as [b|] eqn:Hi; simpl.
  - rewrite (built_indexed _ Hb _ _ Hi).
    apply lookup_lt_Some in Hi. rewrite lookup_seq_lt by exact Hi.
    reflexivity.
  - apply lookup_ge_None in Hi. rewrite lookup_seq_ge by exact Hi.
    reflexivity.
Qed.

(** A built chain can be extended until [index] reaches [INT_MAX]. *)
Lemma built_last chain :
  built chain ->
  exists tail, last chain = Some tail /\
    Block.index tail = Z.of_nat (length chain) - 1.
Proof.
  intros Hb. destruct (last chain) as [tail|] eqn:Hlast.
  - exists tail. split; [reflexivity|].
    rewrite last_lookup in Hlast.
    pose proof (lookup_lt_Some _ _ _ Hlast).
    rewrite (built_indexed _ Hb _ _ Hlast). lia.
  - apply last_None in Hlast. subst.
    destruct (built_head _ Hb) as (? & ? & ? & H). discriminate.
Qed.

Lemma add_blocks_built n chain fresh t chain' :
  built chain -> add_blocks n chain fresh t = Some chain' -> built chain'.
Proof.
  revert chain. induction n as [|n IH]; intros chain Hb H; simpl in H.
  - injection H as <-. exact Hb.
  - destruct (add_block chain fresh t t t) as [[c o]|] eqn:Hadd;
      [|discriminate].
    simpl in H. apply (IH c); [|exact H].
    exact (built_add _ _ _ _ _ _ _ Hb Hadd).
Qed.

Lemma demo_chain_built : built demo_chain.
Proof.
  apply (add_blocks_built 2 demo_genesis demo_fresh demo_time).
  - apply built_genesis.
  - vm_compute. reflexivity.
Qed.

(** ** Verification of chains *)

(** C1.  Every chain obtained from [create_genesis_block] by any number of
    calls of [add_block] passes [verify_blockchain]: it returns 1 and prints
    no warning. *)
Theorem built_chain_verifies chain :
  built chain -> verify_blockchain chain = (1, []).
Proof. intros Hb. apply verify_linked, built_linked, Hb. Qed.

Lemma built_chain_verifies_witness : verify_blockchain demo_chain = (1, []).
Proof. exact (built_chain_verifies demo_chain demo_chain_built). Defined.

(** C2.  In a chain in which the block after position [i] does not store
    the fingerprint of the block at position [i], [verify_blockchain]
    returns 0 and its warning names the [index] of the first block, front to
    back, that disagrees with its predecessor. *)
Theorem verify_reports_first_mismatch chain i p b :
  chain !! i = Some p -> chain !! S i = Some b ->
  Block.previous_hash b <> Block.current_hash p ->
  exists front p' b' back,
    chain = front ++ p' :: b' :: back /\
    (length front <= i)%nat /\
    linked (front ++ [p']) /\
    Block.previous_hash b' <> Block.current_hash p' /\
    verify_blockchain chain = (0, [HashMismatch (Block.index b')]).
Proof.
  intros Hp Hb Hne.
  destruct (first_mismatch chain i p b Hp Hb Hne)
    as (front & p' & b' & back & -> & Hlen & Hl & Hm).
  exists front, p', b', back. repeat split; auto.
  apply verify_first_mismatch; assumption.
Qed.

(** X3.  Overwriting [previous_hash] of block [k + 1] of a built chain with
    text other than [current_hash] of block [k] makes [verify_blockchain]
    return 0 and name block [k + 1]. *)
Lemma tamper_detected chain k p s :
  built chain ->
  chain !! k = Some p -> (S k < length chain)%nat ->
  s <> Block.current_hash p ->
  verify_blockchain (tamper (S k) s chain) =
    (0, [HashMismatch (Z.of_nat (S k))]).
Proof.
  intros Hbuilt Hp Hlen Hs.
  destruct (lookup_lt_is_Some_2 chain (S k) Hlen) as [b Hb].
  pose proof (built_indexed _ Hbuilt _ _ Hb) as Hidx.
  pose proof (built_linked _ Hbuilt) as Hl.
  rewrite <- (take_drop_middle chain k p Hp) in Hl |- *.
  assert (drop (S k) chain = b :: drop (S (S k)) chain) as Hd.
  { rewrite <- (take_drop_middle chain (S k) b Hb) at 1.
    rewrite drop_app_length'; [reflexivity|].
    rewrite length_take. lia. }
  rewrite Hd in Hl |- *. unfold tamper.
  assert (length (take k chain) = k) as Hk by (rewrite length_take; lia).
  replace (S k) with (length (take k chain) + 1)%nat at 1 by lia.
  rewrite alter_app_r. cbn [alter list_alter].
  rewrite <- Hidx.
  apply (verify_first_mismatch (take k chain) p
           (Block.set_previous_hash s b)); [|exact Hs].
  apply (linked_app_l _ (b :: drop (S (S k)) chain)).
  rewrite <- app_assoc. exact Hl.
Qed.

Lemma verify_reports_first_mismatch_witness :
  exists front p' b' back,
    tamper 2 (lit "tampered") demo_chain = front ++ p' :: b' :: back /\
    (length front <= 1)%nat /\
    linked (front ++ [p']) /\
    Block.previous_hash b' <> Block.current_hash p' /\
    verify_blockchain (tamper 2 (lit "tampered") demo_chain) =
      (0, [HashMismatch (Block.index b')]).
Proof.
  refine (verify_reports_first_mismatch
            (tamper 2 (lit "tampered") demo_chain) 1
            (appended (hd demo_fresh demo_genesis) demo_fresh
               demo_time demo_time demo_time)
            (Block.set_previous_hash (lit "tampered")
               (default demo_fresh (last demo_chain))) _ _ _).
  - vm_compute. reflexivity.
  - vm_compute. reflexivity.
  - vm_compute. discriminate.
Defined.

(** C10.  A chain with fewer than two blocks has no pair of neighbours to
    compare: [verify_blockchain] returns 1 on the empty chain (a NULL
    pointer) and on every single block, whatever its fields. *)
Theorem verify_short_chain :
  verify_blockchain [] = (1, []) /\
  forall b, verify_blockchain [b] = (1, []).
Proof. split; [reflexivity|intros b; reflexivity]. Qed.

(** ** Capacity of a block *)

Lemma held_after_store block tx :
  0 <= Block.transaction_count block < MAX_TRANSACTIONS ->
  Block.shaped block ->
  Block.held
    (Block.set_transaction_count (Block.transaction_count block + 1)
       (Block.set_transactions
          (<[Z.to_nat (Block.transaction_count block) := tx]>
             (Block.transactions block)) block)) =
  Block.held block ++ [tx].
Proof.
  intros Hc Hs. unfold Block.held, Block.shaped, MAX_TRANSACTIONS in *.
  simpl. replace (Z.to_nat (Block.transaction_count block + 1))
    with (S (Z.to_nat (Block.transaction_count block))) by lia.
  rewrite (take_S_r _ _ tx).
  - rewrite take_insert_ge by lia. reflexivity.
  - apply list_lookup_insert_eq. lia.
Qed.

Lemma seed_full block txs :
  MAX_TRANSACTIONS <= Block.transaction_count block ->
  seed block txs = Some (block, replicate (length txs) BlockFull).
Proof.
  intros Hfull. induction txs as [|[[[s r] a] t] txs IH]; [reflexivity|].
  cbn [seed]. rewrite add_transaction_full by exact Hfull. simpl.
  rewrite IH. reflexivity.
Qed.

(** X10.  However many calls of [add_transaction] are made on a block, every
    call returns, and the count ends at the capacity or at the old count
    plus the number of calls, whichever is smaller: it never passes
    [MAX_TRANSACTIONS]. *)
Lemma seed_count block attempts :
  0 <= Block.transaction_count block <= MAX_TRANSACTIONS ->
  exists block' outs,
    seed block attempts = Some (block', outs) /\
    length outs = length attempts /\
    Block.transaction_count block' =
      Z.min MAX_TRANSACTIONS
        (Block.transaction_count block + Z.of_nat (length attempts)).
Proof.
  revert block. induction attempts as [|[[[s r] a] t] attempts IH];
    intros block Hc.
  - exists block, []. repeat split. simpl. lia.
  - cbn [seed].
    destruct (Z.lt_ge_cases (Block.transaction_count block) MAX_TRANSACTIONS)
      as [Hroom|Hfull].
    + destruct (add_transaction_stores block s r a t)
        as (b1 & -> & Hc1 & _); [lia|].
      cbn [mbind option_bind].
      destruct (IH b1) as (b' & os & -> & Hlen & Hcount); [lia|].
      eexists _, _. split; [reflexivity|].
      split; [simpl; lia|]. rewrite Hcount, Hc1.
      cbn [length]. lia.
    + rewrite add_transaction_full by exact Hfull. cbn [mbind option_bind].
      destruct (IH block Hc) as (b' & os & -> & Hlen & Hcount).
      eexists _, _. split; [reflexivity|].
      split; [simpl; lia|]. rewrite Hcount. cbn [length]. lia.
Qed.

(** A store of [add_transaction] keeps the record a description of the
    block: a text that fits stays as it is, and one that runs into
    [transactions[0].sender] follows that sender. *)
Lemma add_transaction_laid_out block sender receiver amount now block' o :
  Block.shaped block ->
  Block.laid_out block ->
  add_transaction block sender receiver amount now = Some (block', o) ->
  Block.shaped block' /\ Block.laid_out block' /\
  (Block.fits block -> Block.fits block') /\
  Block.previous_hash block' =
    if Block.overrun block && (Block.transaction_count block =? 0)
       && (Block.transaction_count block <? MAX_TRANSACTIONS)
    then take Block.PREVIOUS_HASH_REACH (Block.previous_hash block)
           ++ snprintf 64 sender
    else Block.previous_hash block.
Proof.
  intros Hshape Hlaid H.
  destruct (Z.lt_ge_cases (Block.transaction_count block) MAX_TRANSACTIONS)
    as [Hroom|Hfull].
  - destruct (Z.lt_ge_cases (Block.transaction_count block) 0) as [Hneg|Hlo].
    { unfold add_transaction in H.
      destruct (Z.ltb_spec (Block.transaction_count block) MAX_TRANSACTIONS);
        [|lia].
      destruct (Z.leb_spec 0 (Block.transaction_count block));
        [lia|discriminate]. }
    rewrite add_transaction_some in H by lia. injection H as <- <-.
    destruct (Z.ltb_spec (Block.transaction_count block) MAX_TRANSACTIONS);
      [|lia].
    rewrite andb_true_r.
    assert (Block.shaped (stored block sender receiver amount now)) as Hs.
    { unfold Block.shaped, stored in *. cbn [Block.transactions
        Block.set_transaction_count Block.set_transactions].
      rewrite length_insert. exact Hshape. }
    destruct Hlaid as [[Ho Hlen]|(Ho & Hlen & Hs0)].
    + rewrite Ho. cbn [andb].
      assert (Block.fits (stored block sender receiver amount now)) as Hf
        by (split; [exact Ho|exact Hlen]).
      split; [exact Hs|]. split; [left; exact Hf|]. split; [|reflexivity].
      intros _. exact Hf.
    + rewrite Ho. cbn [andb].
      destruct (Z.eqb_spec (Block.transaction_count block) 0) as [E|Hn].
      * split; [exact Hs|]. split; [|split; [|reflexivity]].
        -- right. split; [reflexivity|].
           cbn [Block.previous_hash Block.run_into_sender
             Block.transactions stored Block.set_transaction_count
             Block.set_transactions].
           assert (length (take Block.PREVIOUS_HASH_REACH
                             (Block.previous_hash block)) =
                   Block.PREVIOUS_HASH_REACH) as Ht
             by (rewrite length_take; lia).
           split; [rewrite length_app; lia|].
           rewrite drop_app_length' by (symmetry; exact Ht).
           rewrite E. change (Z.to_nat 0) with 0%nat.
           rewrite list_lookup_insert_eq; [reflexivity|].
           unfold Block.shaped, MAX_TRANSACTIONS in Hshape. lia.
        -- intros [Hf _]. congruence.
      * split; [exact Hs|]. split; [|split; [|reflexivity]].
        -- right. split; [exact Ho|]. split; [exact Hlen|].
           cbn [Block.previous_hash Block.transactions stored
             Block.set_transaction_count Block.set_transactions].
           rewrite list_lookup_insert_ne by lia. exact Hs0.
        -- intros [Hf _]. congruence.
  - rewrite add_transaction_full in H by exact Hfull. injection H as <- <-.
    destruct (Z.ltb_spec (Block.transaction_count block) MAX_TRANSACTIONS);
      [lia|].
    rewrite andb_false_r. split; [exact Hshape|]. split; [exact Hlaid|].
    split; [tauto|reflexivity].
Qed.

(** C3.  [add_transaction] on a block in memory whose count is not
    negative: the transaction is stored, and "Transaction added" printed,
    exactly when [transaction_count] is below [MAX_TRANSACTIONS]; it then
    follows the transactions already held, the count grows by one, and
    [index], [timestamp] and [current_hash] keep their values.  So does
    [previous_hash] when its text lies in its field; when the text runs on
    into [transactions[0].sender], as in the first block of a chain, the
    store in slot 0 replaces its end by the new sender.  On a full block the
    call prints "Block full!" and returns the block as it was, count
    included, and so does every further attempt. *)
Theorem add_transaction_capacity block sender receiver amount now :
  0 <= Block.transaction_count block ->
  Block.shaped block ->
  Block.laid_out block ->
  exists block' o,
    add_transaction block sender receiver amount now = Some (block', o) /\
    (o = TransactionAdded sender receiver amount <->
     Block.transaction_count block < MAX_TRANSACTIONS) /\
    (o = BlockFull <-> MAX_TRANSACTIONS <= Block.transaction_count block) /\
    Block.shaped block' /\ Block.laid_out block' /\
    (Block.transaction_count block < MAX_TRANSACTIONS ->
       Block.transaction_count block' = Block.transaction_count block + 1 /\
       Block.held block' =
         Block.held block ++
           [Transaction.mk (snprintf 64 sender) (snprintf 64 receiver)
              amount now] /\
       Block.index block' = Block.index block /\
       Block.timestamp block' = Block.timestamp block /\
       Block.current_hash block' = Block.current_hash block /\
       (Block.fits block ->
          Block.fits block' /\
          Block.previous_hash block' = Block.previous_hash block) /\
       (Block.overruns block ->
          Block.overruns block' /\
          Block.previous_hash block' =
            if Block.transaction_count block =? 0
            then take Block.PREVIOUS_HASH_REACH (Block.previous_hash block)
                   ++ snprintf 64 sender
            else Block.previous_hash block)) /\
    (MAX_TRANSACTIONS <= Block.transaction_count block ->
       block' = block /\
       forall attempts,
         seed block attempts =
           Some (block, replicate (length attempts) BlockFull)).
Proof.
  intros Hlo Hshape Hlaid.
  destruct (Z.lt_ge_cases (Block.transaction_count block) MAX_TRANSACTIONS)
    as [Hroom|Hfull].
  - destruct (add_transaction_stores block sender receiver amount now)
      as (block' & E & Hc & Ht & Hi & Hts & Hh); [lia|].
    destruct (add_transaction_laid_out _ _ _ _ _ _ _ Hshape Hlaid E)
      as (Hs' & Hl' & Hf' & Hp).
    destruct (Z.ltb_spec (Block.transaction_count block) MAX_TRANSACTIONS);
      [|lia].
    rewrite andb_true_r in Hp.
    exists block', (TransactionAdded sender receiver amount).
    split; [exact E|]. split; [tauto|].
    split; [split; [discriminate|lia]|].
    split; [exact Hs'|]. split; [exact Hl'|]. split; [|lia]. intros _.
    split; [exact Hc|]. split.
    { unfold Block.held. rewrite Hc, Ht.
      apply (held_after_store block); [lia|exact Hshape]. }
    split; [exact Hi|]. split; [exact Hts|]. split; [exact Hh|]. split.
    + intros Hf. split; [exact (Hf' Hf)|].
      destruct Hf as [Ho _]. rewrite Ho in Hp. exact Hp.
    + intros (Ho & Hlen & Hs0). rewrite Ho in Hp. cbn [andb] in Hp.
      split; [|exact Hp].
      destruct Hl' as [[Hf _]|Hov]; [|exact Hov].
      assert (Block.overrun block' = true) as Ho'; [|congruence].
      rewrite add_transaction_some in E by lia. rewrite Ho in E.
      injection E as <-.
      destruct (Block.transaction_count block =? 0); [reflexivity|exact Ho].
  - exists block, BlockFull. split; [apply add_transaction_full; exact Hfull|].
    split; [split; [discriminate|lia]|]. split; [tauto|].
    split; [exact Hshape|]. split; [exact Hlaid|].
    split; [lia|]. intros _. split; [reflexivity|].
    intros attempts. apply seed_full, Hfull.
Qed.

Lemma add_transaction_capacity_witness :
  exists block' o,
    add_transaction demo_full_block (lit "Eve") (lit "Frank") 2%float
      demo_time = Some (block', o) /\
    (o = TransactionAdded (lit "Eve") (lit "Frank") 2%float <->
     Block.transaction_count demo_full_block < MAX_TRANSACTIONS) /\
    (o = BlockFull <->
     MAX_TRANSACTIONS <= Block.transaction_count demo_full_block) /\
    Block.shaped block' /\ Block.laid_out block' /\
    (Block.transaction_count demo_full_block < MAX_TRANSACTIONS ->
       Block.transaction_count block' =
         Block.transaction_count demo_full_block + 1 /\
       Block.held block' =
         Block.held demo_full_block ++
           [Transaction.mk (snprintf 64 (lit "Eve"))
              (snprintf 64 (lit "Frank")) 2%float demo_time] /\
       Block.index block' = Block.index demo_full_block /\
       Block.timestamp block' = Block.timestamp demo_full_block /\
       Block.current_hash block' = Block.current_hash demo_full_block /\
       (Block.fits demo_full_block ->
          Block.fits block' /\
          Block.previous_hash block' =
            Block.previous_hash demo_full_block) /\
       (Block.overruns demo_full_block ->
          Block.overruns block' /\
          Block.previous_hash block' =
            if Block.transaction_count demo_full_block =? 0
            then take Block.PREVIOUS_HASH_REACH
                   (Block.previous_hash demo_full_block)
                   ++ snprintf 64 (lit "Eve")
            else Block.previous_hash demo_full_block)) /\
    (MAX_TRANSACTIONS <= Block.transaction_count demo_full_block ->
       block' = demo_full_block /\
       forall attempts,
         seed demo_full_block attempts =
           Some (demo_full_block, replicate (length attempts) BlockFull)).
Proof.
  apply (add_transaction_capacity demo_full_block).
  - vm_compute. discriminate.
  - vm_compute. reflexivity.
  - left. split; [reflexivity|]. vm_compute. lia.
Defined.

(** Eleven attempts on an empty block: ten are stored, the eleventh is
    turned away, and the count is ten. *)
Example eleven_attempts :
  exists block',
    seed demo_fresh
      (replicate 11 (lit "Alice", lit "Bob", 1.5%float, demo_time)) =
      Some (block',
            replicate 10
              (TransactionAdded (lit "Alice") (lit "Bob") 1.5%float)
              ++ [BlockFull]) /\
    Block.transaction_count block' = 10 /\
    block' = demo_full_block.
Proof. eexists. vm_compute. repeat split. Qed.

(** ** What the fingerprint depends on *)

(** The text [calculate_block_hash] formats is made of three fields. *)
Lemma fingerprint_ext b1 b2 :
  Block.index b1 = Block.index b2 ->
  Block.previous_hash b1 = Block.previous_hash b2 ->
  Block.timestamp b1 = Block.timestamp b2 ->
  fingerprint b1 = fingerprint b2.
Proof.
  intros Hi Hp Ht. unfold fingerprint, hash_data. rewrite Hi, Hp, Ht.
  reflexivity.
Qed.




(** On the first block of a chain the text of [previous_hash] runs into
    [transactions[0].sender]: storing a transaction there changes the text
    [calculate_block_hash] reads, and with it the fingerprint. *)
Example genesis_fingerprint_follows_sender :
  let g := hd demo_fresh demo_genesis in
  let g' :=
    default g
      (fst <$> add_transaction g (lit "Alice") (lit "Bob") 1.5%float
                 demo_time) in
  demo_genesis = [g] /\
  add_transaction g (lit "Alice") (lit "Bob") 1.5%float demo_time =
    Some (g', TransactionAdded (lit "Alice") (lit "Bob") 1.5%float) /\
  Block.index g' = Block.index g /\
  Block.timestamp g' = Block.timestamp g /\
  take (HASH_LENGTH + 1) (Block.previous_hash g') =
    take (HASH_LENGTH + 1) (Block.previous_hash g) /\
  Block.previous_hash g = replicate 38 "0"%char /\
  Block.previous_hash g' = replicate 36 "0"%char ++ lit "Alice" /\
  fingerprint g = lit "a7d477fc40f0e3ad" /\
  fingerprint g' = lit "e0ca96a059f50c2b".
Proof. repeat split. Qed.

(** [calculate_block_hash] writes [current_hash] and nothing else. *)
Lemma calculate_block_hash_frame b :
  Block.set_current_hash (Block.current_hash b) (calculate_block_hash b) = b.
Proof. destruct b. reflexivity. Qed.

(** Each of the three fields is used: changing one alone can change the
    fingerprint. *)
Lemma fingerprint_uses_each_field :
  fingerprint (Block.mk 1 (lit "ab") [] 0 5 []) <>
    fingerprint (Block.mk 2 (lit "ab") [] 0 5 []) /\
  fingerprint (Block.mk 1 (lit "ab") [] 0 5 []) <>
    fingerprint (Block.mk 1 (lit "ac") [] 0 5 []) /\
  fingerprint (Block.mk 1 (lit "ab") [] 0 5 []) <>
    fingerprint (Block.mk 1 (lit "ab") [] 0 6 []).
Proof. repeat split; vm_compute; discriminate. Qed.

(** The three fields are concatenated without separators, so different
    triples can give the same text and with it the same fingerprint. *)
Lemma fingerprint_not_injective :
  fingerprint (Block.mk 1 (lit "2") [] 0 3 []) =
  fingerprint (Block.mk 12 (lit "") [] 0 3 []).
Proof. reflexivity. Qed.

(** ** The machine, statement by statement *)

Import Machine.

Lemma insert_middle {A} (h : list A) c x tl :
  <[length h := x]> (h ++ c :: tl) = h ++ x :: tl.
Proof.
  rewrite insert_app_r_alt by lia. rewrite Nat.sub_diag. reflexivity.
Qed.

Lemma store_middle (ptr : Config -> option nat) f h c tl bc lb nb o :
  ptr (mkConfig (h ++ c :: tl) bc lb nb o) = Some (length h) ->
  store ptr f (mkConfig (h ++ c :: tl) bc lb nb o) =
    Some (mkConfig (h ++ f c :: tl) bc lb nb o).
Proof.
  intros Hp. unfold store. rewrite Hp. simpl.
  rewrite list_lookup_middle by reflexivity. simpl.
  unfold set_heap. simpl. rewrite insert_middle. reflexivity.
Qed.

Lemma store_new (ptr : Config -> option nat) f h l k bc lb nb o :
  ptr (mkConfig (h ++ [l; k]) bc lb nb o) = Some (S (length h)) ->
  store ptr f (mkConfig (h ++ [l; k]) bc lb nb o) =
    Some (mkConfig (h ++ [l; f k]) bc lb nb o).
Proof.
  intros Hp.
  pose proof (store_middle ptr f (h ++ [l]) k [] bc lb nb o) as H.
  rewrite <- !app_assoc in H. simpl in H. apply H.
  rewrite Hp, length_app. simpl. f_equal. lia.
Qed.

Lemma store_last (ptr : Config -> option nat) f h l k bc lb nb o :
  ptr (mkConfig (h ++ [l; k]) bc lb nb o) = Some (length h) ->
  store ptr f (mkConfig (h ++ [l; k]) bc lb nb o) =
    Some (mkConfig (h ++ [f l; k]) bc lb nb o).
Proof. apply store_middle. Qed.

Lemma lookup_last_of_two {A} (h : list A) l k :
  (h ++ [l; k]) !! length h = Some l.
Proof. apply list_lookup_middle. reflexivity. Qed.

Lemma lookup_new_of_two {A} (h : list A) l k :
  (h ++ [l; k]) !! S (length h) = Some k.
Proof.
  replace (h ++ [l; k]) with ((h ++ [l]) ++ [k])
    by (rewrite <- app_assoc; reflexivity).
  apply list_lookup_middle. rewrite length_app. simpl. lia.
Qed.

Lemma run_cons s body cfg cfg' tr :
  s cfg = Some cfg' -> run body cfg' = Some tr ->
  run (s :: body) cfg = Some (cfg' :: tr).
Proof. intros Hs Hr. cbn [run]. rewrite Hs. simpl. rewrite Hr. reflexivity. Qed.

Lemma follow_chained h fuel a :
  chained h -> (a < length h)%nat -> (length h - a <= fuel)%nat ->
  follow fuel h a = Some (pred (length h)).
Proof.
  intros Hc. revert a. induction fuel as [|fuel IH]; intros a Ha Hf; [lia|].
  cbn [follow]. destruct (lookup_lt_is_Some_2 h a Ha) as [c Hl].
  rewrite Hl. simpl. rewrite (Hc a c Hl).
  destruct (decide (S a < length h)%nat) as [Hlt|Hge].
  - apply IH; lia.
  - f_equal. lia.
Qed.

Lemma find_last_block_run h l lb nb o :
  chained (h ++ [l]) ->
  find_last_block (mkConfig (h ++ [l]) (Some 0%nat) lb nb o) =
    Some (mkConfig (h ++ [l]) (Some 0%nat) (Some (length h)) nb o).
Proof.
  intros Hc. unfold find_last_block. simpl.
  rewrite (follow_chained _ _ _ Hc); rewrite ?length_app; simpl; try lia.
  simpl. do 3 f_equal. lia.
Qed.

Lemma malloc_new_block_run fresh h l bc lb nb o :
  malloc_new_block fresh (mkConfig (h ++ [l]) bc lb nb o) =
    Some (mkConfig (h ++ [l; mkCell (blk fresh) (next fresh) 0]) bc lb
            (Some (S (length h))) o).
Proof.
  unfold malloc_new_block, alloc. simpl.
  rewrite <- app_assoc, length_app. simpl. do 3 f_equal. lia.
Qed.

Lemma assign_index_run h l k bc o :
  Block.index (blk l) < INT_MAX ->
  assign_index
    (mkConfig (h ++ [l; k]) bc (Some (length h)) (Some (S (length h))) o) =
  Some (mkConfig
          (h ++ [l; on_blk (Block.set_index (Block.index (blk l) + 1)) k])
          bc (Some (length h)) (Some (S (length h))) o).
Proof.
  intros Hi. unfold assign_index, int_succ. simpl.
  rewrite lookup_last_of_two. simpl.
  destruct (Z.ltb_spec (Block.index (blk l)) INT_MAX); [|lia]. simpl.
  apply store_new. reflexivity.
Qed.

Lemma assign_index_overflow h l k bc o :
  INT_MAX <= Block.index (blk l) ->
  assign_index
    (mkConfig (h ++ [l; k]) bc (Some (length h)) (Some (S (length h))) o) =
  None.
Proof.
  intros Hi. unfold assign_index, int_succ. simpl.
  rewrite lookup_last_of_two. simpl.
  destruct (Z.ltb_spec (Block.index (blk l)) INT_MAX); [lia|]. reflexivity.
Qed.

Lemma copy_hash_run h l k bc o :
  copy_hash
    (mkConfig (h ++ [l; k]) bc (Some (length h)) (Some (S (length h))) o) =
  Some (mkConfig
          (h ++ [l; on_blk
                      (Block.set_previous_hash (Block.current_hash (blk l)))
                      k])
          bc (Some (length h)) (Some (S (length h))) o).
Proof.
  unfold copy_hash. simpl. rewrite lookup_last_of_two. simpl.
  apply store_new. reflexivity.
Qed.

Lemma link_run h l k bc o :
  link (mkConfig (h ++ [l; k]) bc (Some (length h)) (Some (S (length h))) o) =
  Some (mkConfig (h ++ [set_next (Some (S (length h))) l; k]) bc
          (Some (length h)) (Some (S (length h))) o).
Proof. unfold link. simpl. apply store_last. reflexivity. Qed.

Lemma call_add_transaction_run h l k bc lb o sender receiver amount now :
  0 <= Block.transaction_count (blk k) < MAX_TRANSACTIONS ->
  Block.overrun (blk k) = false ->
  call_add_transaction new_block sender receiver amount now
    (mkConfig (h ++ [l; k]) bc lb (Some (S (length h))) o) =
  Some (mkConfig
          (h ++ [l; on_blk (fun b =>
                   Block.set_transaction_count (Block.transaction_count b + 1)
                     (Block.set_transactions
                        (<[Z.to_nat (Block.transaction_count b) :=
                             Transaction.mk (snprintf 64 sender)
                               (snprintf 64 receiver) amount now]>
                           (Block.transactions b)) b)) k])
          bc lb (Some (S (length h)))
          (o ++ [TransactionAdded sender receiver amount])).
Proof.
  intros Hc Ho. unfold call_add_transaction. simpl.
  rewrite lookup_new_of_two. simpl.
  rewrite add_transaction_room by auto. simpl.
  do 2 f_equal.
  replace (h ++ [l; k]) with ((h ++ [l]) ++ [k])
    by (rewrite <- app_assoc; reflexivity).
  replace (S (length h)) with (length (h ++ [l]))
    by (rewrite length_app; simpl; lia).
  rewrite insert_middle, <- app_assoc. reflexivity.
Qed.

Lemma print_block_added_run h l k bc lb o :
  print_block_added (mkConfig (h ++ [l; k]) bc lb (Some (S (length h))) o) =
  Some (mkConfig (h ++ [l; k]) bc lb (Some (S (length h)))
          (o ++ [BlockAdded (Block.index (blk k))])).
Proof.
  unfold print_block_added. simpl. rewrite lookup_new_of_two. reflexivity.
Qed.

Lemma run_add_block h l fresh lb nb o now now1 now2 :
  chained (h ++ [l]) ->
  Block.index (blk l) < INT_MAX ->
  run (add_block_body fresh now now1 now2)
      (mkConfig (h ++ [l]) (Some 0%nat) lb nb o) =
    Some (add_block_trace h l fresh nb o now now1 now2).
Proof.
  intros Hc Hi. unfold add_block_body, add_block_trace. cbn zeta.
  cbn [new_block_versions].
  eapply run_cons; [apply find_last_block_run, Hc|].
  eapply run_cons; [apply malloc_new_block_run|].
  eapply run_cons; [apply assign_index_run, Hi|].
  eapply run_cons; [apply copy_hash_run|].
  eapply run_cons; [apply store_new; reflexivity|].
  eapply run_cons; [apply store_new; reflexivity|].
  eapply run_cons; [apply store_new; reflexivity|].
  eapply run_cons; [apply link_run|].
  eapply run_cons;
    [apply call_add_transaction_run;
       [simpl; unfold MAX_TRANSACTIONS; lia|reflexivity]|].
  eapply run_cons;
    [apply call_add_transaction_run;
       [simpl; unfold MAX_TRANSACTIONS; lia|reflexivity]|].
  eapply run_cons; [apply store_new; reflexivity|].
  eapply run_cons; [apply print_block_added_run|].
  reflexivity.
Qed.

Lemma run_cons_none s body cfg cfg' :
  s cfg = Some cfg' -> run body cfg' = None -> run (s :: body) cfg = None.
Proof. intros Hs Hr. cbn [run]. rewrite Hs. simpl. rewrite Hr. reflexivity. Qed.

Lemma run_head_none s body cfg :
  s cfg = None -> run (s :: body) cfg = None.
Proof. intros Hs. cbn [run]. rewrite Hs. reflexivity. Qed.

Lemma run_add_block_overflow h l fresh lb nb o now now1 now2 :
  chained (h ++ [l]) ->
  INT_MAX <= Block.index (blk l) ->
  run (add_block_body fresh now now1 now2)
      (mkConfig (h ++ [l]) (Some 0%nat) lb nb o) = None.
Proof.
  intros Hc Hi. unfold add_block_body.
  eapply run_cons_none; [apply find_last_block_run, Hc|].
  eapply run_cons_none; [apply malloc_new_block_run|].
  apply run_head_none, assign_index_overflow, Hi.
Qed.

Lemma run_create_genesis_block fresh now :
  run (create_genesis_block_body fresh now) initial =
    Some (create_genesis_block_trace fresh now).
Proof. reflexivity. Qed.

Lemma chained_extend h l k :
  chained (h ++ [l]) -> next k = None ->
  chained (h ++ [set_next (Some (S (length h))) l; k]).
Proof.
  intros Hc Hk a c Ha. rewrite length_app. simpl.
  destruct (lt_eq_lt_dec a (length h)) as [[Hlt|Heq]|Hgt].
  - rewrite lookup_app_l in Ha by exact Hlt.
    rewrite (Hc a c) by (rewrite lookup_app_l by exact Hlt; exact Ha).
    rewrite length_app. simpl.
    destruct (decide (S a < length h + 1)%nat),
             (decide (S a < length h + 2)%nat); try lia; reflexivity.
  - subst a. rewrite lookup_last_of_two in Ha. injection Ha as <-. simpl.
    destruct (decide (S (length h) < length h + 2)%nat); [reflexivity|lia].
  - destruct (decide (a = S (length h))) as [->|Hne].
    + rewrite lookup_new_of_two in Ha. injection Ha as <-. rewrite Hk.
      destruct (decide (S (S (length h)) < length h + 2)%nat);
        [lia|reflexivity].
    + apply lookup_lt_Some in Ha. rewrite length_app in Ha. simpl in Ha. lia.
Qed.

Lemma settled_genesis fresh now cfg :
  exec (create_genesis_block_body fresh now) initial = Some cfg ->
  settled cfg.
Proof.
  unfold exec. rewrite run_create_genesis_block. simpl. intros [= <-].
  repeat split.
  - discriminate.
  - intros [|a] c Ha; simpl in Ha; [|discriminate].
    injection Ha as <-. reflexivity.
  - repeat constructor.
Qed.

Lemma exec_add_block h l fresh lb nb o now now1 now2 cfg' :
  chained (h ++ [l]) ->
  exec (add_block_body fresh now now1 now2)
       (mkConfig (h ++ [l]) (Some 0%nat) lb nb o) = Some cfg' ->
  Block.index (blk l) < INT_MAX /\
  last (add_block_trace h l fresh nb o now now1 now2) = Some cfg'.
Proof.
  intros Hc. unfold exec.
  destruct (Z.lt_ge_cases (Block.index (blk l)) INT_MAX) as [Hi|Hi].
  - rewrite (run_add_block _ _ _ _ _ _ _ _ _ Hc Hi). simpl. auto.
  - rewrite (run_add_block_overflow _ _ _ _ _ _ _ _ _ Hc Hi). discriminate.
Qed.

(** A settled configuration is a heap [h ++ [l]] with [blockchain] at 0. *)
Lemma settled_shape cfg :
  settled cfg ->
  exists h l, cfg = mkConfig (h ++ [l]) (Some 0%nat) (last_block cfg)
                      (new_block cfg) (out cfg).
Proof.
  intros (Hne & Hbc & _). destruct cfg as [hp bc lb nb o]. simpl in *.
  destruct (exists_last Hne) as (h & l & ->). subst bc. exists h, l.
  reflexivity.
Qed.

Lemma settled_add cfg fresh now now1 now2 cfg' :
  settled cfg ->
  exec (add_block_body fresh now now1 now2) cfg = Some cfg' ->
  settled cfg'.
Proof.
  intros Hs He. destruct (settled_shape _ Hs) as (h & l & E).
  destruct Hs as (_ & _ & Hc & Hf). rewrite E in He, Hc, Hf. simpl in Hc, Hf.
  apply (exec_add_block _ _ _ _ _ _ _ _ _ _ Hc) in He as [_ He].
  injection He as <-. repeat split.
  - simpl. intros H. apply app_eq_nil in H as [_ H]. discriminate.
  - simpl. apply chained_extend; [exact Hc|reflexivity].
  - simpl. apply Forall_app in Hf as [Hh Hl].
    apply Forall_app. split; [exact Hh|].
    apply Forall_cons in Hl as [[Hw Hfp] _].
    apply Forall_cons. split; [simpl; auto|].
    apply Forall_cons. split; [split; reflexivity|constructor].
Qed.

Lemma at_rest_settled cfg : at_rest cfg -> settled cfg.
Proof.
  induction 1 as [fresh now cfg He|cfg fresh now now1 now2 cfg' _ IH He].
  - exact (settled_genesis _ _ _ He).
  - exact (settled_add _ _ _ _ _ _ IH He).
Qed.

Lemma walk_null fuel h : walk fuel h None = [].
Proof. destruct fuel; reflexivity. Qed.

Lemma walk_chained h fuel a :
  chained h -> (a < length h)%nat -> (length h - a <= fuel)%nat ->
  walk fuel h (Some a) = seq a (length h - a).
Proof.
  intros Hc. revert a. induction fuel as [|fuel IH]; intros a Ha Hf; [lia|].
  cbn [walk]. destruct (lookup_lt_is_Some_2 h a Ha) as [c Hl].
  rewrite Hl, (Hc a c Hl).
  replace (length h - a)%nat with (S (length h - S a)) by lia.
  cbn [seq]. f_equal.
  destruct (decide (S a < length h)%nat) as [Hlt|Hge].
  - apply IH; lia.
  - rewrite walk_null. replace (length h - S a)%nat with 0%nat by lia.
    reflexivity.
Qed.

(** Cells allocated after a chained heap are not met from inside it. *)
Lemma walk_app h1 h2 fuel a :
  chained h1 -> (a < length h1)%nat ->
  walk fuel (h1 ++ h2) (Some a) = walk fuel h1 (Some a).
Proof.
  intros Hc. revert a. induction fuel as [|fuel IH]; intros a Ha;
    [reflexivity|].
  cbn [walk]. rewrite lookup_app_l by exact Ha.
  destruct (lookup_lt_is_Some_2 h1 a Ha) as [c Hl].
  rewrite Hl, (Hc a c Hl). f_equal.
  destruct (decide (S a < length h1)%nat) as [Hlt|Hge].
  - apply IH, Hlt.
  - rewrite !walk_null. reflexivity.
Qed.

Lemma omap_lookup_seq {A B} (f : A -> B) (pre h : list A) :
  omap (fun a => f <$> (pre ++ h) !! a) (seq (length pre) (length h)) =
  f <$> h.
Proof.
  revert pre. induction h as [|x h IH]; intros pre; [reflexivity|].
  cbn [length seq omap list_omap]. rewrite list_lookup_middle by reflexivity.
  simpl. f_equal.
  specialize (IH (pre ++ [x])). rewrite <- app_assoc, length_app in IH.
  simpl in IH. rewrite Nat.add_1_r in IH. exact IH.
Qed.

Lemma chain_addrs_chained h lb nb o :
  h <> [] -> chained h ->
  chain_addrs (mkConfig h (Some 0%nat) lb nb o) = seq 0 (length h).
Proof.
  intros Hne Hc. unfold chain_addrs. simpl.
  assert (0 < length h)%nat by (destruct h; [congruence|simpl; lia]).
  rewrite walk_chained by (auto; lia). f_equal. lia.
Qed.

Lemma chain_of_settled cfg : settled cfg -> chain_of cfg = blk <$> heap cfg.
Proof.
  intros (Hne & Hbc & Hc & _). destruct cfg as [h bc lb nb o]. simpl in *.
  subst bc. unfold chain_of. rewrite chain_addrs_chained by assumption.
  simpl. apply (omap_lookup_seq blk []).
Qed.

(** ** The machine refines the functional layer *)

Lemma create_genesis_block_refines fresh now cfg :
  exec (create_genesis_block_body fresh now) initial = Some cfg ->
  (chain_of cfg, out cfg) = create_genesis_block (blk fresh) now.
Proof.
  unfold exec. rewrite run_create_genesis_block. simpl. intros [= <-].
  reflexivity.
Qed.

Lemma last_add_block_trace h l fresh nb o now now1 now2 :
  last (add_block_trace h l fresh nb o now now1 now2) =
    Some (mkConfig
            (h ++ [set_next (Some (S (length h))) l;
                   mkCell (appended (blk l) (blk fresh) now now1 now2)
                     None 1])
            (Some 0%nat) (Some (length h)) (Some (S (length h)))
            (o ++ [TransactionAdded (lit "Alice") (lit "Bob") 1.5%float;
                   TransactionAdded (lit "Charlie") (lit "Dave") 0.75%float;
                   BlockAdded (Block.index (blk l) + 1)])).
Proof.
  unfold add_block_trace. cbn zeta. cbn [new_block_versions last].
  rewrite <- !app_assoc. reflexivity.
Qed.

Lemma add_block_refines cfg fresh now now1 now2 :
  settled cfg ->
  match exec (add_block_body fresh now now1 now2) cfg with
  | Some cfg' =>
      exists outs,
        add_block (chain_of cfg) (blk fresh) now now1 now2 =
          Some (chain_of cfg', outs) /\
        out cfg' = out cfg ++ outs
  | None => add_block (chain_of cfg) (blk fresh) now now1 now2 = None
  end.
Proof.
  intros Hs. rewrite (chain_of_settled _ Hs).
  destruct (settled_shape _ Hs) as (h & l & E).
  destruct (exec _ cfg) as [cfg'|] eqn:He.
  - pose proof (settled_add _ _ _ _ _ _ Hs He) as Hs'.
    rewrite (chain_of_settled _ Hs').
    destruct Hs as (_ & _ & Hc & _). rewrite E in He, Hc. cbn [heap] in Hc.
    apply (exec_add_block _ _ _ _ _ _ _ _ _ _ Hc) in He as [Hi He].
    rewrite last_add_block_trace in He. injection He as <-.
    rewrite E. cbn [heap out]. eexists. split; [|reflexivity].
    rewrite !fmap_app. cbn [fmap list_fmap blk set_next].
    rewrite (add_block_some _ (blk l)); [|apply last_snoc|exact Hi].
    rewrite <- app_assoc. reflexivity.
  - destruct Hs as (_ & _ & Hc & _). rewrite E in He, Hc |- *.
    cbn [heap] in Hc |- *. unfold exec in He.
    destruct (Z.lt_ge_cases (Block.index (blk l)) INT_MAX) as [Hi|Hi].
    + rewrite (run_add_block _ _ _ _ _ _ _ _ _ Hc Hi) in He.
      unfold mbind, option_bind in He.
      rewrite last_add_block_trace in He. discriminate.
    + rewrite fmap_app. cbn [fmap list_fmap]. unfold add_block.
      rewrite last_snoc. cbn [mbind option_bind]. unfold int_succ.
      destruct (Z.ltb_spec (Block.index (blk l)) INT_MAX); [lia|reflexivity].
Qed.

Lemma at_rest_built cfg : at_rest cfg -> built (chain_of cfg).
Proof.
  induction 1 as [fresh now cfg He|cfg fresh now now1 now2 cfg' Hr IH He].
  - apply create_genesis_block_refines in He.
    replace (chain_of cfg) with (create_genesis_block (blk fresh) now).1
      by (rewrite <- He; reflexivity).
    apply built_genesis.
  - pose proof (add_block_refines cfg fresh now now1 now2
                  (at_rest_settled _ Hr)) as H.
    rewrite He in H. destruct H as (outs & H & _).
    exact (built_add _ _ _ _ _ _ _ IH H).
Qed.

Lemma demo_rest_at_rest : at_rest demo_rest.
Proof. apply (rest_genesis demo_cell demo_time). reflexivity. Qed.

Lemma demo_trace_run :
  run (add_block_body demo_cell demo_time demo_time demo_time) demo_rest =
    Some demo_trace.
Proof. vm_compute. reflexivity. Qed.

(** The versions of the two last cells in the [i]-th configuration of
    [add_block_trace]. *)
Lemma add_block_trace_lookup h l fresh nb o now now1 now2 i cfg :
  add_block_trace h l fresh nb o now now1 now2 !! i = Some cfg ->
  blockchain cfg = Some 0%nat /\
  ((i = 0%nat /\ heap cfg = h ++ [l]) \/
   ((1 <= i < 12)%nat /\
    exists l' k,
      heap cfg = h ++ [l'; k] /\
      l' = (if decide (i < 7)%nat then l
            else set_next (Some (S (length h))) l) /\
      hash_writes k = (if decide (i < 10)%nat then 0 else 1)%nat /\
      ((6 <= i)%nat -> next k = None) /\
      ((9 <= i)%nat -> Block.transaction_count (blk k) = 2) /\
      ((10 <= i)%nat -> Block.current_hash (blk k) = fingerprint (blk k)))).
Proof.
  unfold add_block_trace. cbn zeta. cbn [new_block_versions].
  intros Hi. split.
  - do 12 (destruct i as [|i]; [injection Hi as <-; reflexivity|]).
    discriminate.
  - destruct i as [|i]; [left; injection Hi as <-; auto|right].
    do 11 (destruct i as [|i];
      [injection Hi as <-; split; [lia|];
       eexists _, _; split; [reflexivity|];
       repeat split; try reflexivity; intros; try lia; reflexivity|]).
    discriminate.
Qed.

Lemma chained_last h l : chained (h ++ [l]) -> next l = None.
Proof.
  intros Hc.
  rewrite (Hc (length h) l) by (apply list_lookup_middle; reflexivity).
  rewrite length_app. simpl.
  destruct (decide (S (length h) < length h + 1)%nat); [lia|reflexivity].
Qed.

Lemma walk_before_link h l k :
  chained (h ++ [l]) ->
  walk (length (h ++ [l; k])) (h ++ [l; k]) (Some 0%nat) =
    seq 0 (S (length h)).
Proof.
  intros Hc.
  replace (h ++ [l; k]) with ((h ++ [l]) ++ [k])
    by (rewrite <- app_assoc; reflexivity).
  assert (length (h ++ [l]) = S (length h)) as Hlen
    by (rewrite length_app; simpl; lia).
  rewrite (walk_app _ _ _ _ Hc) by lia.
  rewrite (walk_chained _ _ _ Hc) by (rewrite ?length_app; simpl; lia).
  rewrite Hlen. f_equal.
Qed.

Lemma walk_after_link h l k :
  chained (h ++ [l]) -> next k = None ->
  walk (length (h ++ [set_next (Some (S (length h))) l; k]))
       (h ++ [set_next (Some (S (length h))) l; k]) (Some 0%nat) =
    seq 0 (S (S (length h))).
Proof.
  intros Hc Hk. pose proof (chained_extend h l k Hc Hk) as Hc'.
  rewrite (walk_chained _ _ _ Hc') by (rewrite ?length_app; simpl; lia).
  rewrite length_app. cbn [length]. f_equal. lia.
Qed.

(** In a chained heap no block points at the address past the end. *)
Lemma chained_no_successor h p c :
  chained h -> h !! p = Some c -> next c <> Some (length h).
Proof.
  intros Hc Hp. rewrite (Hc p c Hp).
  destruct (decide (S p < length h)%nat); [|discriminate].
  intros [= E]. lia.
Qed.

Lemma create_genesis_block_trace_lookup fresh now i cfg :
  create_genesis_block_trace fresh now !! i = Some cfg ->
  exists c, heap cfg = [c] /\
    hash_writes c = (if decide (i < 6)%nat then 0 else 1)%nat.
Proof.
  unfold create_genesis_block_trace. cbn zeta. intros Hi.
  do 8 (destruct i as [|i];
    [injection Hi as <-; eexists; split; reflexivity|]).
  discriminate.
Qed.

(** A run of [add_block] from a configuration at rest is the written-out
    trace. *)
Lemma run_add_block_at_rest cfg0 fresh now now1 now2 tr :
  at_rest cfg0 ->
  run (add_block_body fresh now now1 now2) cfg0 = Some tr ->
  exists h l,
    heap cfg0 = h ++ [l] /\ chained (h ++ [l]) /\
    Forall (fun c => hash_writes c = 1%nat) (h ++ [l]) /\
    tr = add_block_trace h l fresh (new_block cfg0) (out cfg0) now now1 now2.
Proof.
  intros Hr Hrun. pose proof (at_rest_settled _ Hr) as Hs.
  destruct (settled_shape _ Hs) as (h & l & E).
  destruct Hs as (_ & _ & Hc & Hf). rewrite E in Hrun, Hc, Hf.
  cbn [heap] in Hc, Hf. exists h, l.
  split; [rewrite E; reflexivity|]. split; [exact Hc|].
  split; [eapply Forall_impl; [exact Hf|]; intros c [Hw _]; exact Hw|].
  destruct (Z.lt_ge_cases (Block.index (blk l)) INT_MAX) as [Hi|Hi].
  - rewrite (run_add_block _ _ _ _ _ _ _ _ _ Hc Hi) in Hrun.
    injection Hrun as <-. reflexivity.
  - rewrite (run_add_block_overflow _ _ _ _ _ _ _ _ _ Hc Hi) in Hrun.
    discriminate.
Qed.

(** ** When a block gets its fingerprint *)

(** C5, as the code has it.  Take any call of [add_block] from a
    configuration between calls, and let [a] be the address of the block it
    allocates.  The call runs twelve statements.  After each of them every
    older block has had its [current_hash] written exactly once.  The new
    block has had no write until the eleventh statement, the call of
    [calculate_block_hash], and exactly one from then on; by then its [next]
    is NULL and its two transactions are stored, and the text written is the
    fingerprint of its fields.  It is the [next] of the former last block
    from the eighth statement on, that is, before it has a fingerprint.  The
    call returns in a configuration between calls, where every block has
    exactly one write.  In [create_genesis_block] the only block has no
    write until the seventh statement and one from then on. *)
Theorem fingerprint_assigned_once cfg0 fresh now now1 now2 tr :
  at_rest cfg0 ->
  run (add_block_body fresh now now1 now2) cfg0 = Some tr ->
  let a := length (heap cfg0) in
  length tr = 12%nat /\
  (exists cfg', last tr = Some cfg' /\ at_rest cfg') /\
  (forall i cfg, tr !! i = Some cfg ->
     (forall p c, (p < a)%nat -> heap cfg !! p = Some c ->
        hash_writes c = 1%nat) /\
     ((1 <= i)%nat ->
        exists c, heap cfg !! a = Some c /\
          hash_writes c = (if decide (i < 10)%nat then 0 else 1)%nat /\
          ((6 <= i)%nat -> next c = None) /\
          ((9 <= i)%nat -> Block.transaction_count (blk c) = 2) /\
          ((10 <= i)%nat ->
             Block.current_hash (blk c) = fingerprint (blk c))) /\
     (linked_as_successor cfg a <-> (7 <= i)%nat)) /\
  (forall fresh0 now0 tr0,
     run (create_genesis_block_body fresh0 now0) initial = Some tr0 ->
     forall i cfg, tr0 !! i = Some cfg ->
       exists c, heap cfg = [c] /\
         hash_writes c = (if decide (i < 6)%nat then 0 else 1)%nat).
Proof.
  intros Hr Hrun a.
  destruct (run_add_block_at_rest _ _ _ _ _ _ Hr Hrun)
    as (h & l & Hh & Hc & Hf & Htr).
  assert (a = S (length h)) as Ha
    by (unfold a; rewrite Hh, length_app; simpl; lia).
  clearbody a. subst a.
  split; [rewrite Htr; reflexivity|].
  split.
  { destruct (last tr) as [cfg'|] eqn:Hl.
    - exists cfg'. split; [reflexivity|].
      apply (rest_add cfg0 fresh now now1 now2 cfg' Hr).
      unfold exec. rewrite Hrun. exact Hl.
    - rewrite Htr, last_add_block_trace in Hl. discriminate. }
  split.
  - intros i cfg Hi. rewrite Htr in Hi.
    apply add_block_trace_lookup in Hi as [Hbc [[-> Hheap]|[Hrange Hcase]]].
    + (* before the allocation *)
      split; [|split; [lia|]].
      * intros p c _ Hp. rewrite Hheap in Hp.
        exact (proj1 (Forall_lookup _ _) Hf p c Hp).
      * split; [|lia]. intros (p & c & _ & Hp & Hn). exfalso.
        rewrite Hheap in Hp.
        apply (chained_no_successor _ _ _ Hc Hp).
        rewrite Hn, length_app. simpl. f_equal. lia.
    + destruct Hcase as (l' & k & Hheap & Hl' & Hw & Hnext & Hcount & Hfp).
      assert (hash_writes l' = 1%nat) as Hwl.
      { apply Forall_app in Hf as [_ Hl]. apply Forall_cons in Hl as [Hl _].
        rewrite Hl'. destruct (decide (i < 7)%nat); exact Hl. }
      split; [|split].
      * intros p c Hlt Hp. rewrite Hheap in Hp.
        destruct (decide (p = length h)) as [->|Hne].
        -- rewrite lookup_last_of_two in Hp. injection Hp as <-. exact Hwl.
        -- rewrite lookup_app_l in Hp by lia.
           apply Forall_app in Hf as [Hfh _].
           exact (proj1 (Forall_lookup _ _) Hfh p c Hp).
      * intros _. exists k. rewrite Hheap. split; [apply lookup_new_of_two|].
        auto.
      * unfold linked_as_successor, chain_addrs. rewrite Hheap, Hbc.
        destruct (decide (i < 7)%nat) as [Hlt|Hge]; subst l'.
        -- rewrite (walk_before_link _ _ _ Hc).
           split; [|lia]. intros (p & c & Hin & Hp & Hn). exfalso.
           apply elem_of_seq in Hin.
           replace (h ++ [l; k]) with ((h ++ [l]) ++ [k]) in Hp
             by (rewrite <- app_assoc; reflexivity).
           rewrite lookup_app_l in Hp by (rewrite length_app; simpl; lia).
           apply (chained_no_successor _ _ _ Hc Hp).
           rewrite Hn, length_app. simpl. f_equal. lia.
        -- rewrite (walk_after_link _ _ _ Hc) by (apply Hnext; lia).
           split; [lia|]. intros _.
           exists (length h), (set_next (Some (S (length h))) l).
           split; [apply elem_of_seq; lia|].
           split; [apply lookup_last_of_two|reflexivity].
  - intros fresh0 now0 tr0 Hrun0 i cfg Hi.
    rewrite run_create_genesis_block in Hrun0. injection Hrun0 as <-.
    exact (create_genesis_block_trace_lookup _ _ _ _ Hi).
Qed.

Lemma fingerprint_assigned_once_witness :
  let a := length (heap demo_rest) in
  length demo_trace = 12%nat /\
  (exists cfg', last demo_trace = Some cfg' /\ at_rest cfg') /\
  (forall i cfg, demo_trace !! i = Some cfg ->
     (forall p c, (p < a)%nat -> heap cfg !! p = Some c ->
        hash_writes c = 1%nat) /\
     ((1 <= i)%nat ->
        exists c, heap cfg !! a = Some c /\
          hash_writes c = (if decide (i < 10)%nat then 0 else 1)%nat /\
          ((6 <= i)%nat -> next c = None) /\
          ((9 <= i)%nat -> Block.transaction_count (blk c) = 2) /\
          ((10 <= i)%nat ->
             Block.current_hash (blk c) = fingerprint (blk c))) /\
     (linked_as_successor cfg a <-> (7 <= i)%nat)) /\
  (forall fresh0 now0 tr0,
     run (create_genesis_block_body fresh0 now0) initial = Some tr0 ->
     forall i cfg, tr0 !! i = Some cfg ->
       exists c, heap cfg = [c] /\
         hash_writes c = (if decide (i < 6)%nat then 0 else 1)%nat).
Proof.
  exact (fingerprint_assigned_once demo_rest demo_cell demo_time demo_time
           demo_time demo_trace demo_rest_at_rest demo_trace_run).
Defined.

(** C5, as the claim has it, fails: just after [last_block->next =
    new_block] in the first call of [add_block], the block at address 1 is
    the [next] of the genesis block and its fingerprint has not been
    written. *)
Lemma linked_before_fingerprinted :
  reachable demo_linked /\
  linked_as_successor demo_linked 1 /\
  unassigned demo_linked 1.
Proof.
  split; [|split].
  - apply (reach_add demo_rest demo_cell demo_time demo_time demo_time
             demo_trace).
    + exact demo_rest_at_rest.
    + exact demo_trace_run.
    + apply (list_elem_of_lookup_2 _ 7%nat). vm_compute. reflexivity.
  - exists 0%nat. eexists. split; [|split].
    + vm_compute. apply list_elem_of_here.
    + vm_compute. reflexivity.
    + reflexivity.
  - eexists. split; [vm_compute; reflexivity|reflexivity].
Qed.

(** ** What [add_block] appends *)

Lemma held_appended tail fresh now now1 now2 :
  Block.shaped fresh ->
  Block.held (appended tail fresh now now1 now2) =
    [Transaction.mk (lit "Alice") (lit "Bob") 1.5%float now1;
     Transaction.mk (lit "Charlie") (lit "Dave") 0.75%float now2].
Proof.
  unfold Block.shaped, Block.held, appended. cbn -[take].
  destruct (Block.transactions fresh) as [|x [|y txs]];
    [discriminate..|reflexivity].
Qed.

Lemma add_block_as_spec chain fresh now now1 now2 :
  add_block chain fresh now now1 now2 =
  spec_append_block chain fresh now (sample_transactions now1 now2).
Proof.
  unfold add_block, spec_append_block.
  destruct (last chain) as [tail|]; [|reflexivity]. cbn [mbind option_bind].
  destruct (int_succ (Block.index tail)) as [i|]; reflexivity.
Qed.

(** C6, as the code has it.  [add_block] takes the chain and nothing else
    from its caller.  On a chain whose last block is [tail] and whose
    [index] can still grow, it appends one block [b] with [index] one more
    than that of [tail], [previous_hash] equal to [current_hash] of [tail],
    the time of the call as [timestamp], exactly the two sample transactions
    Alice to Bob 1.5 and Charlie to Dave 0.75, each stored by
    [add_transaction], and the fingerprint of its fields as [current_hash];
    [b] becomes the last block.  This is what the spec's [append_block] does
    when asked to seed those two transactions. *)
Theorem add_block_appends chain tail fresh now now1 now2 :
  last chain = Some tail ->
  Block.index tail < INT_MAX ->
  Block.shaped fresh ->
  exists b,
    add_block chain fresh now now1 now2 =
      Some (chain ++ [b],
            [TransactionAdded (lit "Alice") (lit "Bob") 1.5%float;
             TransactionAdded (lit "Charlie") (lit "Dave") 0.75%float;
             BlockAdded (Block.index b)]) /\
    add_block chain fresh now now1 now2 =
      spec_append_block chain fresh now (sample_transactions now1 now2) /\
    Block.index b = Block.index tail + 1 /\
    Block.previous_hash b = Block.current_hash tail /\
    Block.timestamp b = now /\
    Block.transaction_count b = 2 /\
    Block.held b =
      [Transaction.mk (lit "Alice") (lit "Bob") 1.5%float now1;
       Transaction.mk (lit "Charlie") (lit "Dave") 0.75%float now2] /\
    Block.current_hash b = fingerprint b /\
    last (chain ++ [b]) = Some b.
Proof.
  intros Hlast Hi Hshape. exists (appended tail fresh now now1 now2).
  split; [apply add_block_some; assumption|].
  split; [apply add_block_as_spec|].
  do 4 (split; [reflexivity|]).
  split; [apply held_appended, Hshape|].
  split; [reflexivity|apply last_snoc].
Qed.

Lemma add_block_appends_witness :
  exists b,
    add_block demo_genesis demo_fresh demo_time demo_time demo_time =
      Some (demo_genesis ++ [b],
            [TransactionAdded (lit "Alice") (lit "Bob") 1.5%float;
             TransactionAdded (lit "Charlie") (lit "Dave") 0.75%float;
             BlockAdded (Block.index b)]) /\
    add_block demo_genesis demo_fresh demo_time demo_time demo_time =
      spec_append_block demo_genesis demo_fresh demo_time
        (sample_transactions demo_time demo_time) /\
    Block.index b = Block.index (hd demo_fresh demo_genesis) + 1 /\
    Block.previous_hash b =
      Block.current_hash (hd demo_fresh demo_genesis) /\
    Block.timestamp b = demo_time /\
    Block.transaction_count b = 2 /\
    Block.held b =
      [Transaction.mk (lit "Alice") (lit "Bob") 1.5%float demo_time;
       Transaction.mk (lit "Charlie") (lit "Dave") 0.75%float demo_time] /\
    Block.current_hash b = fingerprint b /\
    last (demo_genesis ++ [b]) = Some b.
Proof.
  apply (add_block_appends demo_genesis (hd demo_fresh demo_genesis)).
  - reflexivity.
  - vm_compute. reflexivity.
  - reflexivity.
Defined.

(** C6, as the claim has it, fails: a caller who wants a block without
    transactions, as in the spec's example, gets one from the spec's
    [append_block] and a block with two transactions from [add_block]. *)
Lemma add_block_seeds_fixed_transactions :
  exists chain1 outs1 chain2 outs2 b1 b2,
    add_block demo_genesis demo_fresh demo_time demo_time demo_time =
      Some (chain1, outs1) /\
    spec_append_block demo_genesis demo_fresh demo_time [] =
      Some (chain2, outs2) /\
    last chain1 = Some b1 /\ last chain2 = Some b2 /\
    Block.transaction_count b1 = 2 /\ Block.transaction_count b2 = 0.
Proof. do 6 eexists. vm_compute. repeat split. Qed.

(** ** The genesis block and the indices *)

(** The literal is longer than the [HASH_LENGTH] characters the field
    [previous_hash] is declared for, and long enough to reach
    [transactions[0].sender]. *)
Remark genesis_literal_length :
  length GENESIS_PREVIOUS_HASH = 38%nat /\ HASH_LENGTH = 32%nat /\
  Block.PREVIOUS_HASH_REACH = 36%nat.
Proof. repeat split. Qed.

(** C7.  What [create_genesis_block] stores, for every block [malloc]
    returns and every reading of the clock.  The block has [index] 0, holds
    no transaction, carries the time of the call and the fingerprint of its
    fields.  Its sentinel does not fit: the text of [previous_hash] is 38
    zeros, more than the [HASH_LENGTH] characters of the field, so the
    [strcpy] runs on through the padding and stores two zeros and the
    terminator in [transactions[0].sender].  The text is read back whole,
    but it shares its end with that sender: the first transaction stored in
    the block replaces the last two zeros by the sender's name. *)
Theorem genesis_sentinel_overruns_field fresh now :
  Block.shaped fresh ->
  exists g,
    create_genesis_block fresh now = ([g], [GenesisCreated]) /\
    Block.index g = 0 /\
    Block.transaction_count g = 0 /\
    Block.held g = [] /\
    Block.timestamp g = now /\
    Block.current_hash g = fingerprint g /\
    Block.previous_hash g = replicate 38 "0"%char /\
    (HASH_LENGTH < length (Block.previous_hash g))%nat /\
    ~ Block.fits g /\
    Block.overruns g /\
    Transaction.sender <$> Block.transactions g !! 0%nat = Some (lit "00") /\
    forall sender receiver amount t,
      exists g',
        add_transaction g sender receiver amount t =
          Some (g', TransactionAdded sender receiver amount) /\
        Block.held g' =
          [Transaction.mk (snprintf 64 sender) (snprintf 64 receiver)
             amount t] /\
        Block.previous_hash g' =
          replicate 36 "0"%char ++ snprintf 64 sender.
Proof.
  intros Hs. unfold Block.shaped in Hs.
  destruct (Block.transactions fresh) as [|tx0 slots] eqn:Etx;
    [discriminate|].
  eexists. split; [reflexivity|].
  do 6 (split; [reflexivity|]).
  split; [change (32 < 38)%nat; lia|].
  split; [intros [Ho _]; discriminate|].
  assert (forall h : text,
            Transaction.sender <$>
              alter (Transaction.set_sender h) 0%nat
                (Block.transactions (Block.set_index 0 fresh)) !! 0%nat =
            Some h) as Hsender.
  { intros h. cbn [Block.transactions Block.set_index]. rewrite Etx.
    reflexivity. }
  split.
  { split; [reflexivity|]. split; [change (36 <= 38)%nat; lia|].
    apply Hsender. }
  split; [apply Hsender|].
  intros sender receiver amount t. eexists.
  split; [rewrite add_transaction_some by (cbn; unfold MAX_TRANSACTIONS; lia);
          reflexivity|].
  split; [|reflexivity].
  unfold Block.held, Block.run_into_sender, stored, calculate_block_hash,
    Block.set_current_hash, Block.set_timestamp, Block.set_transaction_count,
    Block.overrun_previous_hash, Block.set_transactions, Block.set_index.
  cbn [Block.transactions Block.transaction_count]. rewrite Etx.
  reflexivity.
Qed.

Lemma genesis_sentinel_overruns_field_witness :
  exists g,
    create_genesis_block demo_fresh demo_time = ([g], [GenesisCreated]) /\
    Block.index g = 0 /\
    Block.transaction_count g = 0 /\
    Block.held g = [] /\
    Block.timestamp g = demo_time /\
    Block.current_hash g = fingerprint g /\
    Block.previous_hash g = replicate 38 "0"%char /\
    (HASH_LENGTH < length (Block.previous_hash g))%nat /\
    ~ Block.fits g /\
    Block.overruns g /\
    Transaction.sender <$> Block.transactions g !! 0%nat = Some (lit "00") /\
    forall sender receiver amount t,
      exists g',
        add_transaction g sender receiver amount t =
          Some (g', TransactionAdded sender receiver amount) /\
        Block.held g' =
          [Transaction.mk (snprintf 64 sender) (snprintf 64 receiver)
             amount t] /\
        Block.previous_hash g' =
          replicate 36 "0"%char ++ snprintf 64 sender.
Proof.
  apply (genesis_sentinel_overruns_field demo_fresh demo_time).
  reflexivity.
Defined.

(** In a built chain every block but the first has its [previous_hash]
    inside the field: it is a fingerprint of at most 16 characters. *)
Lemma built_rest_fits chain :
  built chain -> Forall Block.fits (tail chain).
Proof.
  intros Hb. pose proof (built_fingerprinted _ Hb) as Hf. revert Hf.
  revert chain Hb. apply (built_inv (fun chain =>
    Forall (fun b => Block.current_hash b = fingerprint b) chain ->
    Forall Block.fits (tail chain))).
  - intros fresh now _. constructor.
  - intros chain last_block fresh now now1 now2 Hb IH Hlast _ Hf.
    apply Forall_app in Hf as [Hf _].
    assert (Block.fits (appended last_block fresh now now1 now2)) as Hnew.
    { split; [reflexivity|].
      cbn [appended calculate_block_hash Block.set_current_hash Block.mk
        Block.previous_hash].
      rewrite last_lookup in Hlast.
      rewrite (proj1 (Forall_lookup _ _) Hf _ _ Hlast).
      pose proof (fingerprint_length last_block). unfold HASH_LENGTH. lia. }
    destruct chain as [|g rest]; [discriminate|].
    cbn [tail app]. apply Forall_app. split; [exact (IH Hf)|].
    constructor; [exact Hnew|constructor].
Qed.

(** Every built chain starts with the block [create_genesis_block] made,
    and it is the only one with [index] 0 and the only one whose
    [previous_hash] leaves its field: [add_block] leaves the blocks before
    the new one alone. *)
Lemma built_chain_head chain :
  built chain ->
  exists g rest,
    chain = g :: rest /\
    Block.index g = 0 /\
    Block.previous_hash g = replicate 38 "0"%char /\
    Block.overrun g = true /\
    Block.transaction_count g = 0 /\
    Block.current_hash g = fingerprint g /\
    Forall (fun b => Block.index b <> 0) rest /\
    Forall Block.fits rest.
Proof.
  intros Hb. destruct (built_head _ Hb) as (fresh & now & rest & E).
  eexists _, rest. split; [exact E|].
  do 5 (split; [reflexivity|]). split.
  - apply Forall_lookup. intros i b Hi.
    assert (chain !! S i = Some b) as Hi' by (rewrite E; exact Hi).
    rewrite (built_indexed _ Hb _ _ Hi'). lia.
  - pose proof (built_rest_fits _ Hb) as Hf. rewrite E in Hf. exact Hf.
Qed.

(** C8.  In a built chain of [n] blocks the indices are 0, 1, ..., [n - 1]
    from front to back: none is negative and each is one more than the
    one before.  [add_block] keeps this: the chain it returns is one block
    longer and numbered in the same way; and it does return a chain as long
    as the next index fits an [int]. *)
Theorem indices_count_from_zero chain :
  built chain ->
  Block.index <$> chain = Z.of_nat <$> seq 0 (length chain) /\
  Forall (fun b => 0 <= Block.index b) chain /\
  (forall i p b, chain !! i = Some p -> chain !! S i = Some b ->
     Block.index b = Block.index p + 1) /\
  (forall fresh now now1 now2 chain' outs,
     add_block chain fresh now now1 now2 = Some (chain', outs) ->
     length chain' = S (length chain) /\
     Block.index <$> chain' = Z.of_nat <$> seq 0 (length chain')) /\
  (forall fresh now now1 now2,
     Z.of_nat (length chain) <= INT_MAX ->
     is_Some (add_block chain fresh now now1 now2)).
Proof.
  intros Hb. split; [apply built_indices, Hb|].
  split.
  { apply Forall_lookup. intros i b Hi.
    rewrite (built_indexed _ Hb _ _ Hi). lia. }
  split.
  { intros i p b Hp Hn.
    rewrite (built_indexed _ Hb _ _ Hp), (built_indexed _ Hb _ _ Hn). lia. }
  split.
  - intros fresh now now1 now2 chain' outs Hadd.
    pose proof (built_add _ _ _ _ _ _ _ Hb Hadd) as Hb'.
    split; [|apply built_indices, Hb'].
    apply add_block_inv in Hadd as (tail & _ & _ & -> & _).
    rewrite length_app. simpl. lia.
  - intros fresh now now1 now2 Hlen.
    destruct (built_last _ Hb) as (tail & Hlast & Hidx).
    rewrite (add_block_some _ tail) by (auto; lia). eexists. reflexivity.
Qed.

Lemma indices_count_from_zero_witness :
  Block.index <$> demo_chain = Z.of_nat <$> seq 0 (length demo_chain) /\
  Forall (fun b => 0 <= Block.index b) demo_chain /\
  (forall i p b, demo_chain !! i = Some p -> demo_chain !! S i = Some b ->
     Block.index b = Block.index p + 1) /\
  (forall fresh now now1 now2 chain' outs,
     add_block demo_chain fresh now now1 now2 = Some (chain', outs) ->
     length chain' = S (length demo_chain) /\
     Block.index <$> chain' = Z.of_nat <$> seq 0 (length chain')) /\
  (forall fresh now now1 now2,
     Z.of_nat (length demo_chain) <= INT_MAX ->
     is_Some (add_block demo_chain fresh now now1 now2)).
Proof. exact (indices_count_from_zero demo_chain demo_chain_built). Defined.

(** The run of the spec's example: three blocks, numbered 0, 1, 2, and the
    chain verifies. *)
Example demo_chain_indices :
  length demo_chain = 3%nat /\
  Block.index <$> demo_chain = [0; 1; 2] /\
  verify_blockchain demo_chain = (1, []).
Proof. vm_compute. repeat split. Qed.

(** ** The text of a fingerprint *)

Lemma hex_digit_in d : 0 <= d < 16 -> hex_digit d ∈ HEX_DIGITS.
Proof.
  intros Hd. apply list_elem_of_In. unfold hex_digit.
  apply nth_In. change (length HEX_DIGITS) with 16%nat. lia.
Qed.

Lemma hex_digits_in fuel n :
  0 <= n -> Forall (fun c => c ∈ HEX_DIGITS) (hex_digits fuel n).
Proof.
  revert n. induction fuel as [|fuel IH]; intros n Hn; [constructor|].
  cbn [hex_digits]. destruct (Z.ltb_spec n 16).
  - apply Forall_cons. split; [apply hex_digit_in; lia|constructor].
  - apply Forall_app. split.
    + apply IH. apply Z.div_pos; lia.
    + apply Forall_cons. split; [|constructor].
      apply hex_digit_in. apply Z.mod_pos_bound. lia.
Qed.

Lemma fingerprint_hex b : Forall (fun c => c ∈ HEX_DIGITS) (fingerprint b).
Proof.
  unfold fingerprint, snprintf. apply Forall_take, hex_digits_in.
  apply simple_hash_range.
Qed.

(** C9, as the code has it.  A fingerprint is the value of [simple_hash]
    printed with [%lx]: between 1 and 16 lower-case hexadecimal digits,
    without padding, so its length varies.  The block [add_block] appends to
    a built chain has as [previous_hash] the very text that is
    [current_hash] of the block before it, and both texts are such
    fingerprints. *)
Theorem fingerprint_text chain fresh now now1 now2 chain' outs :
  built chain ->
  add_block chain fresh now now1 now2 = Some (chain', outs) ->
  (forall b0,
     (1 <= length (Block.current_hash (calculate_block_hash b0)) <= 16)%nat /\
     Forall (fun c => c ∈ HEX_DIGITS)
       (Block.current_hash (calculate_block_hash b0))) /\
  exists tail b,
    last chain = Some tail /\ chain' = chain ++ [b] /\
    Block.previous_hash b = Block.current_hash tail /\
    Block.current_hash tail = fingerprint tail /\
    Block.current_hash b = fingerprint b /\
    (1 <= length (Block.previous_hash b) <= 16)%nat /\
    (1 <= length (Block.current_hash b) <= 16)%nat.
Proof.
  intros Hb Hadd. split.
  { intros b0. split; [apply fingerprint_length|apply fingerprint_hex]. }
  apply add_block_inv in Hadd as (tail & Hlast & _ & -> & _).
  exists tail, (appended tail fresh now now1 now2).
  assert (Block.current_hash tail = fingerprint tail) as Hfp.
  { pose proof (built_fingerprinted _ Hb) as Hf.
    rewrite last_lookup in Hlast.
    exact (proj1 (Forall_lookup _ _) Hf _ _ Hlast). }
  split; [exact Hlast|]. do 2 (split; [reflexivity|]).
  split; [exact Hfp|]. split; [reflexivity|].
  split; [|apply fingerprint_length].
  change (Block.previous_hash (appended tail fresh now now1 now2))
    with (Block.current_hash tail).
  rewrite Hfp. apply fingerprint_length.
Qed.

Lemma fingerprint_text_witness :
  (forall b0,
     (1 <= length (Block.current_hash (calculate_block_hash b0)) <= 16)%nat /\
     Forall (fun c => c ∈ HEX_DIGITS)
       (Block.current_hash (calculate_block_hash b0))) /\
  exists tail b,
    last demo_genesis = Some tail /\
    demo_genesis ++ [appended (hd demo_fresh demo_genesis) demo_fresh
                       demo_time demo_time demo_time] =
      demo_genesis ++ [b] /\
    Block.previous_hash b = Block.current_hash tail /\
    Block.current_hash tail = fingerprint tail /\
    Block.current_hash b = fingerprint b /\
    (1 <= length (Block.previous_hash b) <= 16)%nat /\
    (1 <= length (Block.current_hash b) <= 16)%nat.
Proof.
  apply (fingerprint_text demo_genesis demo_fresh demo_time demo_time
           demo_time _
           [TransactionAdded (lit "Alice") (lit "Bob") 1.5%float;
            TransactionAdded (lit "Charlie") (lit "Dave") 0.75%float;
            BlockAdded 1]).
  - apply built_genesis.
  - vm_compute. reflexivity.
Defined.

(** C9, as the claim has it, fails: in the run that starts at [demo_time]
    the fingerprints of the first two blocks have 16 characters and that of
    the third has 15. *)
Lemma fingerprint_length_varies :
  built demo_chain /\
  (fun b => length (Block.current_hash (calculate_block_hash b)))
    <$> demo_chain = [16; 16; 15]%nat /\
  (fun b => length (Block.current_hash b)) <$> demo_chain =
    [16; 16; 15]%nat.
Proof.
  split; [exact demo_chain_built|]. split; vm_compute; reflexivity.
Qed.

(** * Further properties of the code *)

(** ** What [verify_blockchain] accepts *)

Lemma verify_not_linked chain :
  ~ linked chain -> exists i, verify_blockchain chain = (0, [HashMismatch i]).
Proof.
  induction chain as [|current rest IH]; [intros H; destruct H; exact I|].
  destruct rest as [|nxt rest']; [intros H; destruct H; exact I|].
  intros Hn. cbn [verify_blockchain].
  destruct (decide (Block.previous_hash nxt = Block.current_hash current))
    as [Heq|Hne].
  - apply IH. intros Hl. apply Hn. apply linked_cons. auto.
  - eexists. reflexivity.
Qed.

Lemma linked_dec chain : linked chain \/ ~ linked chain.
Proof.
  induction chain as [|current rest IH]; [left; exact I|].
  destruct rest as [|nxt rest']; [left; exact I|].
  destruct (decide (Block.previous_hash nxt = Block.current_hash current))
    as [Heq|Hne].
  - destruct IH as [Hl|Hn].
    + left. apply linked_cons. auto.
    + right. intros Hl. destruct (proj1 (linked_cons _ _ _) Hl). auto.
  - right. intros Hl. destruct (proj1 (linked_cons _ _ _) Hl). auto.
Qed.

Lemma verify_cases chain :
  (linked chain /\ verify_blockchain chain = (1, [])) \/
  (~ linked chain /\ exists i, verify_blockchain chain = (0, [HashMismatch i])).
Proof.
  destruct (linked_dec chain) as [Hl|Hn].
  - left. split; [exact Hl|apply verify_linked, Hl].
  - right. split; [exact Hn|apply verify_not_linked, Hn].
Qed.

(** X1.  [verify_blockchain] returns 1, and prints nothing, exactly when
    every block stores as [previous_hash] the [current_hash] of the block
    before it; otherwise it returns 0 after exactly one warning.  No
    fingerprint is recomputed: a chain whose hashes are linked passes
    whatever else its blocks contain. *)
Theorem verify_valid_iff_linked chain :
  (verify_blockchain chain = (1, []) <-> linked chain) /\
  ((verify_blockchain chain).1 = 1 <-> linked chain) /\
  (verify_blockchain chain = (1, []) \/
   exists i, verify_blockchain chain = (0, [HashMismatch i])).
Proof.
  destruct (verify_cases chain) as [[Hl Hv]|[Hn [i Hv]]]; rewrite Hv.
  - repeat split; auto.
  - repeat split; try (intros; discriminate); try tauto.
    right. eexists. reflexivity.
Qed.

(** ** Tampering that [verify_blockchain] does not see *)

Lemma linked_alter f k chain :
  (forall b, Block.previous_hash (f b) = Block.previous_hash b /\
             Block.current_hash (f b) = Block.current_hash b) ->
  linked (alter f k chain) <-> linked chain.
Proof.
  intros Hf. revert k. induction chain as [|current rest IH]; intros k;
    [reflexivity|].
  destruct rest as [|nxt rest'].
  - destruct k; reflexivity.
  - destruct k as [|k].
    + change (alter f 0%nat (current :: nxt :: rest'))
        with (f current :: nxt :: rest').
      rewrite !linked_cons. rewrite (proj2 (Hf current)). reflexivity.
    + change (alter f (S k) (current :: nxt :: rest'))
        with (current :: alter f k (nxt :: rest')).
      specialize (IH k).
      destruct k as [|k].
      * change (alter f 0%nat (nxt :: rest')) with (f nxt :: rest') in *.
        rewrite !linked_cons. rewrite (proj1 (Hf nxt)). tauto.
      * change (alter f (S k) (nxt :: rest'))
          with (nxt :: alter f k rest') in *.
        rewrite !linked_cons. tauto.
Qed.

(** X2.  Changing a block in any way that keeps its [previous_hash] and
    [current_hash], for instance rewriting its transactions, their count
    or its timestamp, never changes the value [verify_blockchain]
    returns. *)
Theorem verify_ignores_payload f k chain :
  (forall b, Block.previous_hash (f b) = Block.previous_hash b /\
             Block.current_hash (f b) = Block.current_hash b) ->
  (verify_blockchain (alter f k chain)).1 = (verify_blockchain chain).1.
Proof.
  intros Hf.
  pose proof (linked_alter f k chain Hf) as Hiff.
  destruct (verify_cases chain) as [[Hl Hv]|[Hn [i Hv]]];
  destruct (verify_cases (alter f k chain)) as [[Hl' Hv']|[Hn' [i' Hv']]];
    rewrite Hv, Hv'; try reflexivity; tauto.
Qed.

Lemma verify_ignores_payload_witness :
  (verify_blockchain
     (alter (fun b => Block.set_timestamp 0
                        (Block.set_transaction_count 0
                           (Block.set_transactions [] b)))
        1%nat demo_chain)).1 =
  (verify_blockchain demo_chain).1.
Proof.
  apply verify_ignores_payload. intros b. split; reflexivity.
Defined.

(** ** Tampering with a hash *)

Lemma linked_snoc_change front b b' :
  Block.previous_hash b' = Block.previous_hash b ->
  linked (front ++ [b]) -> linked (front ++ [b']).
Proof.
  intros Hp. induction front as [|current rest IH]; [intros; exact I|].
  destruct rest as [|nxt rest'].
  - intros [Heq _]. split; [congruence|exact I].
  - intros [Heq Hrest].
    change (linked (current :: nxt :: (rest' ++ [b']))).
    apply linked_cons. split; [exact Heq|apply IH, Hrest].
Qed.

Lemma split_at_pair {A} (l : list A) k x y :
  l !! k = Some x -> l !! S k = Some y ->
  l = take k l ++ x :: y :: drop (S (S k)) l /\ length (take k l) = k.
Proof.
  intros Hx Hy. split.
  - rewrite <- (take_drop_middle l k x Hx) at 1. do 2 f_equal.
    rewrite <- (take_drop_middle l (S k) y Hy) at 1.
    rewrite drop_app_length'; [reflexivity|].
    apply lookup_lt_Some in Hy. rewrite length_take. lia.
  - apply lookup_lt_Some in Hx. rewrite length_take. lia.
Qed.

(** X4.  In a built chain, overwriting [current_hash] of a block that has a
    successor with any other text makes [verify_blockchain] return 0 and
    name the successor. *)
Theorem current_hash_tamper_detected chain k b s :
  built chain ->
  chain !! k = Some b -> (S k < length chain)%nat ->
  s <> Block.current_hash b ->
  verify_blockchain (alter (Block.set_current_hash s) k chain) =
    (0, [HashMismatch (Z.of_nat (S k))]).
Proof.
  intros Hbuilt Hb Hlen Hs.
  destruct (lookup_lt_is_Some_2 chain (S k) Hlen) as [n Hn].
  pose proof (built_indexed _ Hbuilt _ _ Hn) as Hidx.
  pose proof (built_linked _ Hbuilt) as Hl.
  destruct (split_at_pair chain k b n Hb Hn) as [E Hk].
  rewrite E in Hl |- *.
  replace k with (length (take k chain) + 0)%nat at 1 by lia.
  rewrite alter_app_r. cbn [alter list_alter]. rewrite <- Hidx.
  assert (linked (take k chain ++ [b; n])) as Hl2.
  { apply (linked_app_l _ (drop (S (S k)) chain)).
    rewrite <- app_assoc. exact Hl. }
  apply (verify_first_mismatch (take k chain)
           (Block.set_current_hash s b) n).
  - apply (linked_snoc_change _ b); [reflexivity|].
    apply (linked_app_l _ [n]). rewrite <- app_assoc. exact Hl2.
  - assert (Block.previous_hash n = Block.current_hash b) as Hpn.
    { clear -Hl2. induction (take k chain) as [|c r IH].
      - destruct Hl2 as [H _]. exact H.
      - destruct r as [|c' r']; destruct Hl2 as [_ H]; apply IH, H. }
    simpl. congruence.
Qed.

Lemma current_hash_tamper_detected_witness :
  verify_blockchain
    (alter (Block.set_current_hash (lit "forged")) 0%nat demo_chain) =
    (0, [HashMismatch (Z.of_nat 1)]).
Proof.
  apply (current_hash_tamper_detected demo_chain 0
           (hd demo_fresh demo_genesis)).
  - exact demo_chain_built.
  - reflexivity.
  - vm_compute. lia.
  - vm_compute. discriminate.
Defined.

Lemma linked_alter_head f chain :
  (forall b, Block.current_hash (f b) = Block.current_hash b) ->
  linked chain -> linked (alter f 0%nat chain).
Proof.
  intros Hf. destruct chain as [|current [|nxt rest]]; try (intros; exact I).
  intros [Heq Hrest]. change (linked (f current :: nxt :: rest)).
  apply linked_cons. rewrite Hf. auto.
Qed.

Lemma linked_alter_last f chain :
  (forall b, Block.previous_hash (f b) = Block.previous_hash b) ->
  linked chain -> linked (alter f (pred (length chain)) chain).
Proof.
  intros Hf Hl. destruct (decide (chain = [])) as [->|Hne]; [exact I|].
  destruct (exists_last Hne) as (front & b & ->).
  rewrite length_app. simpl.
  replace (pred (length front + 1)) with (length front + 0)%nat by lia.
  rewrite alter_app_r. cbn [alter list_alter].
  apply (linked_snoc_change _ b); [apply Hf|exact Hl].
Qed.

(** X5.  Two overwrites that [verify_blockchain] cannot see, on any chain
    whose hashes are linked: nothing is compared with [previous_hash] of
    the first block, and nothing with [current_hash] of the last one. *)
Theorem end_hashes_unchecked chain s :
  linked chain ->
  verify_blockchain (alter (Block.set_previous_hash s) 0%nat chain) =
    (1, []) /\
  verify_blockchain
    (alter (Block.set_current_hash s) (pred (length chain)) chain) =
    (1, []).
Proof.
  intros Hl. split; apply verify_linked.
  - apply linked_alter_head; [reflexivity|exact Hl].
  - apply linked_alter_last; [reflexivity|exact Hl].
Qed.

Lemma end_hashes_unchecked_witness :
  verify_blockchain
    (alter (Block.set_previous_hash (lit "forged")) 0%nat demo_chain) =
    (1, []) /\
  verify_blockchain
    (alter (Block.set_current_hash (lit "forged"))
       (pred (length demo_chain)) demo_chain) = (1, []).
Proof.
  apply end_hashes_unchecked. exact (built_linked _ demo_chain_built).
Defined.

Lemma tamper_detected_witness :
  verify_blockchain (tamper 2 (lit "forged") demo_chain) =
    (0, [HashMismatch (Z.of_nat 2)]).
Proof.
  apply (tamper_detected demo_chain 1
           (appended (hd demo_fresh demo_genesis) demo_fresh
              demo_time demo_time demo_time)).
  - exact demo_chain_built.
  - vm_compute. reflexivity.
  - vm_compute. lia.
  - vm_compute. discriminate.
Defined.

(** ** [simple_hash] as arithmetic *)

Lemma hash_step_spec h c :
  hash_step h c = (33 * h + char_to_int c) mod 2 ^ 64.
Proof.
  unfold hash_step, ulong, ULONG_WIDTH. rewrite Z.shiftl_mul_pow2 by lia.
  rewrite Z.add_mod_idemp_l by lia. rewrite Z.add_mod_idemp_r by lia.
  rewrite <- Z.add_assoc, Z.add_mod_idemp_l by lia. f_equal. lia.
Qed.

Lemma hash_step_mod h c : hash_step (h mod 2 ^ 64) c = hash_step h c.
Proof.
  rewrite !hash_step_spec.
  rewrite <- Z.add_mod_idemp_l by lia.
  rewrite Z.mul_mod_idemp_r by lia.
  rewrite Z.add_mod_idemp_l by lia. reflexivity.
Qed.

Lemma fold_hash_step_mod data h :
  fold_left hash_step data (h mod 2 ^ 64) =
  fold_left (fun h c => 33 * h + char_to_int c) data h mod 2 ^ 64.
Proof.
  revert h. induction data as [|c data IH]; intros h; [reflexivity|].
  cbn [fold_left]. rewrite hash_step_mod, hash_step_spec. apply IH.
Qed.

(** X6.  [simple_hash] is the hash known as djb2 reduced modulo 2^64: the
    shift and add of each round multiply by 33, and wrapping around in
    every round gives the same value as wrapping once at the end. *)
Theorem simple_hash_is_djb2 data :
  simple_hash data = djb2 data mod 2 ^ 64 /\
  0 <= simple_hash data < 2 ^ 64.
Proof.
  split; [|apply simple_hash_range].
  unfold simple_hash, djb2. rewrite <- fold_hash_step_mod. reflexivity.
Qed.

Lemma char_to_int_range c : -128 <= char_to_int c < 128.
Proof.
  unfold char_to_int. pose proof (nat_ascii_bounded c).
  destruct (Z.ltb_spec (Z.of_nat (nat_of_ascii c)) 128); lia.
Qed.

Lemma char_to_int_inj a b : char_to_int a = char_to_int b -> a = b.
Proof.
  unfold char_to_int. intros H.
  pose proof (nat_ascii_bounded a). pose proof (nat_ascii_bounded b).
  rewrite <- (ascii_nat_embedding a), <- (ascii_nat_embedding b). f_equal.
  destruct (Z.ltb_spec (Z.of_nat (nat_of_ascii a)) 128),
           (Z.ltb_spec (Z.of_nat (nat_of_ascii b)) 128); lia.
Qed.

Lemma hash_step_inj h a b : hash_step h a = hash_step h b -> a = b.
Proof.
  rewrite !hash_step_spec. intros H. apply char_to_int_inj.
  pose proof (char_to_int_range a). pose proof (char_to_int_range b).
  assert ((char_to_int a - char_to_int b) mod 2 ^ 64 = 0) as Hd.
  { replace (char_to_int a - char_to_int b)
      with ((33 * h + char_to_int a) - (33 * h + char_to_int b)) by lia.
    rewrite Zminus_mod, H, Z.sub_diag. reflexivity. }
  apply Z.mod_divide in Hd; [|lia]. destruct Hd as [q Hq].
  assert (q = 0) by nia. lia.
Qed.

(** X7.  Two texts that differ only in their last character never have the
    same [simple_hash]. *)
Theorem simple_hash_last_character data a b :
  a <> b -> simple_hash (data ++ [a]) <> simple_hash (data ++ [b]).
Proof.
  intros Hab H. apply Hab. unfold simple_hash in H.
  rewrite !fold_left_app in H. cbn [fold_left] in H.
  exact (hash_step_inj _ _ _ H).
Qed.

Lemma simple_hash_last_character_witness :
  simple_hash (lit "0001770700011" ++ ["1"%char]) <>
  simple_hash (lit "0001770700011" ++ ["2"%char]).
Proof. apply simple_hash_last_character. discriminate. Defined.

(** ** The fingerprint keeps the whole hash *)

Lemma position_hex_digit d :
  0 <= d < 16 -> position (hex_digit d) HEX_DIGITS = d.
Proof.
  intros Hd. rewrite <- (Z2Nat.id d) at 2 by lia. unfold hex_digit.
  assert (Z.to_nat d < 16)%nat as Hn by lia. revert Hn.
  generalize (Z.to_nat d). intros n Hn.
  do 16 (destruct n as [|n]; [reflexivity|]). lia.
Qed.

Lemma hex_value_snoc s c :
  hex_value (s ++ [c]) = 16 * hex_value s + position c HEX_DIGITS.
Proof. unfold hex_value. rewrite fold_left_app. reflexivity. Qed.

Lemma hex_value_digits fuel n :
  0 <= n < 16 ^ Z.of_nat (S fuel) ->
  hex_value (hex_digits (S fuel) n) = n.
Proof.
  revert n. induction fuel as [|fuel IH]; intros n Hn.
  - change (16 ^ Z.of_nat 1) with 16 in Hn. cbn [hex_digits].
    destruct (Z.ltb_spec n 16); [|lia].
    unfold hex_value. cbn [fold_left]. rewrite position_hex_digit; lia.
  - remember (S fuel) as k. cbn [hex_digits].
    destruct (Z.ltb_spec n 16) as [Hlt|Hge].
    + unfold hex_value. cbn [fold_left]. rewrite position_hex_digit; lia.
    + rewrite hex_value_snoc.
      rewrite position_hex_digit by (apply Z.mod_pos_bound; lia).
      rewrite IH.
      * rewrite (Z.div_mod n 16) at 3 by lia. lia.
      * rewrite Nat2Z.inj_succ, Z.pow_succ_r in Hn by lia.
        split; [apply Z.div_pos; lia|].
        apply Z.div_lt_upper_bound; lia.
Qed.

Lemma fingerprint_untruncated b :
  fingerprint b = fmt_lx (simple_hash (hash_data b)).
Proof.
  pose proof (fingerprint_length b) as Hlen.
  unfold fingerprint, snprintf, HASH_LENGTH in *.
  rewrite length_take in Hlen. apply take_ge. lia.
Qed.

Lemma hex_value_fingerprint b :
  hex_value (fingerprint b) = simple_hash (hash_data b).
Proof.
  rewrite fingerprint_untruncated. unfold fmt_lx.
  apply (hex_value_digits 15).
  pose proof (simple_hash_range (hash_data b)).
  change (16 ^ Z.of_nat 16) with (2 ^ 64). lia.
Qed.

(** X8.  The text [calculate_block_hash] stores keeps the whole 64-bit
    hash: the buffer of [HASH_LENGTH] bytes never cuts it short, reading it
    back as a hexadecimal number gives the hash, and so two blocks have the
    same [current_hash] text exactly when [simple_hash] gives the same
    value on their data. *)
Theorem fingerprint_keeps_hash b :
  Block.current_hash (calculate_block_hash b) =
    fmt_lx (simple_hash (hash_data b)) /\
  hex_value (Block.current_hash (calculate_block_hash b)) =
    simple_hash (hash_data b) /\
  forall b',
    Block.current_hash (calculate_block_hash b) =
      Block.current_hash (calculate_block_hash b') <->
    simple_hash (hash_data b) = simple_hash (hash_data b').
Proof.
  cbn [calculate_block_hash Block.set_current_hash Block.current_hash].
  split; [apply fingerprint_untruncated|].
  split; [apply hex_value_fingerprint|].
  intros b'. cbn [Block.current_hash]. split.
  - intros H. rewrite <- !hex_value_fingerprint, H. reflexivity.
  - intros H. rewrite !fingerprint_untruncated, H. reflexivity.
Qed.

(** ** Names longer than a field *)

(** X9.  [add_transaction] stores at most the first 63 characters of the
    sender and of the receiver, and the whole name when it is that short;
    the line it prints shows the names in full.  The amount and the time of
    the call are stored as they are. *)
Theorem add_transaction_truncates_names block sender receiver amount now :
  0 <= Block.transaction_count block < MAX_TRANSACTIONS ->
  Block.shaped block ->
  exists block' tx,
    add_transaction block sender receiver amount now =
      Some (block', TransactionAdded sender receiver amount) /\
    Block.transactions block' !! Z.to_nat (Block.transaction_count block) =
      Some tx /\
    Transaction.sender tx = take 63 sender /\
    Transaction.receiver tx = take 63 receiver /\
    (length (Transaction.sender tx) <= 63)%nat /\
    (length (Transaction.receiver tx) <= 63)%nat /\
    ((length sender <= 63)%nat -> Transaction.sender tx = sender) /\
    ((length receiver <= 63)%nat -> Transaction.receiver tx = receiver) /\
    Transaction.amount tx = amount /\
    Transaction.timestamp tx = now.
Proof.
  intros Hc Hs.
  destruct (add_transaction_stores block sender receiver amount now Hc)
    as (block' & E & _ & Ht & _).
  exists block', (Transaction.mk (snprintf 64 sender) (snprintf 64 receiver)
                    amount now).
  split; [exact E|].
  split.
  { rewrite Ht. apply list_lookup_insert_eq.
    unfold Block.shaped, MAX_TRANSACTIONS in *. lia. }
  cbn [Transaction.sender Transaction.receiver Transaction.amount
       Transaction.timestamp]. unfold snprintf.
  change (64 - 1)%nat with 63%nat.
  repeat split; try (rewrite length_take; lia); intros; apply take_ge; lia.
Qed.

Lemma add_transaction_truncates_names_witness :
  exists block' tx,
    add_transaction demo_fresh (replicate 70 "A"%char) (lit "Bob")
      1.5%float demo_time =
      Some (block',
            TransactionAdded (replicate 70 "A"%char) (lit "Bob") 1.5%float) /\
    Block.transactions block' !!
      Z.to_nat (Block.transaction_count demo_fresh) = Some tx /\
    Transaction.sender tx = take 63 (replicate 70 "A"%char) /\
    Transaction.receiver tx = take 63 (lit "Bob") /\
    (length (Transaction.sender tx) <= 63)%nat /\
    (length (Transaction.receiver tx) <= 63)%nat /\
    ((length (replicate 70 "A"%char) <= 63)%nat ->
       Transaction.sender tx = replicate 70 "A"%char) /\
    ((length (lit "Bob") <= 63)%nat -> Transaction.receiver tx = lit "Bob") /\
    Transaction.amount tx = 1.5%float /\
    Transaction.timestamp tx = demo_time.
Proof.
  apply add_transaction_truncates_names.
  - vm_compute. split; [discriminate|reflexivity].
  - reflexivity.
Defined.

Lemma seed_count_witness :
  exists block' outs,
    seed demo_fresh
      (replicate 11 (lit "Alice", lit "Bob", 1.5%float, demo_time)) =
      Some (block', outs) /\
    length outs =
      length (replicate 11 (lit "Alice", lit "Bob", 1.5%float, demo_time)) /\
    Block.transaction_count block' =
      Z.min MAX_TRANSACTIONS
        (Block.transaction_count demo_fresh +
         Z.of_nat
           (length
              (replicate 11 (lit "Alice", lit "Bob", 1.5%float, demo_time)))).
Proof.
  apply seed_count. vm_compute. split; discriminate.
Defined.

(** ** Built chains, block by block *)

Lemma built_cases chain :
  built chain ->
  (exists fresh now, chain = (create_genesis_block fresh now).1) \/
  (exists chain0 tail fresh now now1 now2,
     built chain0 /\ last chain0 = Some tail /\
     Block.index tail < INT_MAX /\
     chain = chain0 ++ [appended tail fresh now now1 now2]).
Proof.
  intros Hb.
  destruct Hb
    as [fresh now|chain0 fresh now now1 now2 chain' outs Hb Hadd].
  - left. eauto.
  - right. apply add_block_inv in Hadd as (tail & Hlast & Hi & -> & _).
    exists chain0, tail, fresh, now, now1, now2. auto.
Qed.

Lemma hashed_appended tail fresh now now1 now2 :
  hashed (appended tail fresh now now1 now2) =
    (Block.index tail + 1, Block.current_hash tail,
     fingerprint
       (Block.mk (Block.index tail + 1) (Block.current_hash tail) [] 0 now
          [])).
Proof.
  unfold hashed. cbn [appended calculate_block_hash Block.index
    Block.previous_hash Block.current_hash Block.set_current_hash].
  f_equal; try (apply fingerprint_ext; reflexivity).
Qed.

(** X11.  The hashes of a built chain are a function of the times at which
    its blocks were created: two chains built by the program whose blocks
    carry the same timestamps agree, block by block, on [index],
    [previous_hash] and [current_hash], whatever [malloc] returned and
    whenever the transactions were stored. *)
Theorem built_chains_agree chain1 chain2 :
  built chain1 -> built chain2 ->
  Block.timestamp <$> chain1 = Block.timestamp <$> chain2 ->
  hashed <$> chain1 = hashed <$> chain2.
Proof.
  intros Hb1. revert chain2. revert chain1 Hb1.
  apply (built_inv (fun chain1 => forall chain2, built chain2 ->
    Block.timestamp <$> chain1 = Block.timestamp <$> chain2 ->
    hashed <$> chain1 = hashed <$> chain2)).
  - intros fresh now chain2 Hb2 Ht.
    destruct (built_cases _ Hb2)
      as [(f & n & ->)|(c0 & tl & f & n & n1 & n2 & Hb0 & Hl & _ & ->)].
    + injection Ht as ->. reflexivity.
    + exfalso. apply (f_equal length) in Ht.
      rewrite !length_fmap, length_app in Ht. simpl in Ht.
      destruct c0; [discriminate|simpl in Ht; lia].
  - intros chain tail fresh now now1 now2 Hb IH Hlast Hi chain2 Hb2 Ht.
    destruct (built_cases _ Hb2)
      as [(f & n & ->)|(c0 & tl & f & n & n1 & n2 & Hb0 & Hl & _ & ->)].
    + exfalso. apply (f_equal length) in Ht.
      rewrite !length_fmap, length_app in Ht. simpl in Ht.
      destruct chain; [discriminate|simpl in Ht; lia].
    + rewrite !fmap_app in Ht. rewrite !fmap_app.
      cbn [fmap list_fmap] in Ht |- *.
      apply app_inj_tail in Ht as [Ht Hn].
      specialize (IH c0 Hb0 Ht). rewrite IH. f_equal.
      assert (hashed tail = hashed tl) as Htl.
      { apply (f_equal last) in IH. rewrite !fmap_last, Hlast, Hl in IH.
        cbn [fmap option_fmap option_map] in IH. congruence. }
      unfold hashed in Htl. injection Htl as Hidx Hprev Hcur.
      cbn [Block.timestamp appended calculate_block_hash
        Block.set_current_hash Block.mk] in Hn.
      rewrite !hashed_appended, Hidx, Hcur, Hn. reflexivity.
Qed.

Lemma built_chains_agree_witness :
  hashed <$> demo_chain =
  hashed <$>
    default []
      (add_blocks 2
         (create_genesis_block
            (Block.mk 7 (lit "junk") [] 99 3 (lit "junk")) demo_time).1
         (Block.mk 8 (lit "more junk") [] (-1) 4 []) demo_time).
Proof.
  apply built_chains_agree.
  - exact demo_chain_built.
  - apply (add_blocks_built 2
             (create_genesis_block
                (Block.mk 7 (lit "junk") [] 99 3 (lit "junk")) demo_time).1
             (Block.mk 8 (lit "more junk") [] (-1) 4 []) demo_time).
    + apply built_genesis.
    + vm_compute. reflexivity.
  - vm_compute. reflexivity.
Defined.

(** X12.  In a built chain the first block holds no transaction and every
    later block holds exactly two, so no count is negative or above
    [MAX_TRANSACTIONS]. *)
Theorem built_transaction_counts chain :
  built chain ->
  (forall i b, chain !! i = Some b ->
     Block.transaction_count b = if decide (i = 0%nat) then 0 else 2) /\
  Forall (fun b => 0 <= Block.transaction_count b <= MAX_TRANSACTIONS) chain.
Proof.
  intros Hb.
  assert (forall i b, chain !! i = Some b ->
            Block.transaction_count b = if decide (i = 0%nat) then 0 else 2)
    as H.
  { revert chain Hb. apply (built_inv (fun chain => forall i b,
      chain !! i = Some b ->
      Block.transaction_count b = if decide (i = 0%nat) then 0 else 2)).
    - intros fresh now [|i] b Hi; simpl in Hi; [|discriminate].
      injection Hi as <-. reflexivity.
    - intros chain tail fresh now now1 now2 _ IH Hlast _ i b Hi.
      apply lookup_app_Some in Hi as [Hi|[Hlen Hi]]; [eauto|].
      rewrite last_lookup in Hlast. apply lookup_lt_Some in Hlast.
      destruct (i - length chain)%nat eqn:Hk; [|discriminate].
      injection Hi as <-. destruct (decide (i = 0%nat)); [lia|reflexivity]. }
  split; [exact H|].
  apply Forall_lookup. intros i b Hi. rewrite (H i b Hi).
  unfold MAX_TRANSACTIONS. destruct (decide (i = 0%nat)); lia.
Qed.

Lemma built_transaction_counts_witness :
  (forall i b, demo_chain !! i = Some b ->
     Block.transaction_count b = if decide (i = 0%nat) then 0 else 2) /\
  Forall (fun b => 0 <= Block.transaction_count b <= MAX_TRANSACTIONS)
    demo_chain.
Proof. exact (built_transaction_counts demo_chain demo_chain_built). Defined.

(** ** Printing *)

Lemma print_transactions_stop slots i count :
  count <= i -> print_transactions slots i count = Some [].
Proof.
  intros H. destruct slots; cbn [print_transactions];
    destruct (Z.ltb_spec i count); try lia; reflexivity.
Qed.

Lemma print_transactions_take slots i count :
  count - i <= Z.of_nat (length slots) ->
  print_transactions slots i count =
    Some (transaction_line <$> take (Z.to_nat (count - i)) slots).
Proof.
  revert i. induction slots as [|tx slots IH]; intros i H.
  - rewrite print_transactions_stop by (simpl in H; lia).
    rewrite take_nil. reflexivity.
  - cbn [print_transactions]. destruct (Z.ltb_spec i count) as [Hlt|Hge].
    + rewrite IH by (simpl in H; lia). cbn [mbind option_bind].
      replace (Z.to_nat (count - i)) with (S (Z.to_nat (count - (i + 1))))
        by lia.
      reflexivity.
    + replace (Z.to_nat (count - i)) with 0%nat by lia. reflexivity.
Qed.

Lemma print_transactions_past slots i count :
  Z.of_nat (length slots) < count - i ->
  print_transactions slots i count = None.
Proof.
  revert i. induction slots as [|tx slots IH]; intros i H.
  - cbn [print_transactions]. simpl in H.
    destruct (Z.ltb_spec i count); [reflexivity|lia].
  - cbn [print_transactions]. destruct (Z.ltb_spec i count); [|simpl in H; lia].
    rewrite IH by (simpl in H; lia). reflexivity.
Qed.

Lemma print_block_some block :
  Block.transaction_count block
    <= Z.of_nat (length (Block.transactions block)) ->
  print_block block =
    Some ([ BlockHeader (Block.index block);
            PreviousHashLine (Block.previous_hash block);
            CurrentHashLine (Block.current_hash block);
            TimestampLine (Block.timestamp block);
            TransactionsLine (Block.transaction_count block) ]
          ++ (transaction_line <$> Block.held block) ++ [BlockFooter]).
Proof.
  intros H. unfold print_block.
  rewrite print_transactions_take by lia. cbn [mbind option_bind].
  rewrite Z.sub_0_r. reflexivity.
Qed.

(** X13.  [print_block] prints the five lines of the head, then one line
    for each transaction the block holds, in the order in which they were
    stored, then the closing line: [transaction_count] lines of
    transactions, none when the count is zero or negative.  It needs the
    count to be within the array. *)
Theorem print_block_lines block :
  Block.transaction_count block
    <= Z.of_nat (length (Block.transactions block)) ->
  print_block block =
    Some ([ BlockHeader (Block.index block);
            PreviousHashLine (Block.previous_hash block);
            CurrentHashLine (Block.current_hash block);
            TimestampLine (Block.timestamp block);
            TransactionsLine (Block.transaction_count block) ]
          ++ (transaction_line <$> Block.held block) ++ [BlockFooter]) /\
  length (transaction_line <$> Block.held block) =
    Z.to_nat (Block.transaction_count block).
Proof.
  intros H. split; [apply print_block_some, H|].
  unfold Block.held. rewrite length_fmap, length_take. lia.
Qed.

Lemma print_block_lines_witness :
  print_block demo_full_block =
    Some ([ BlockHeader (Block.index demo_full_block);
            PreviousHashLine (Block.previous_hash demo_full_block);
            CurrentHashLine (Block.current_hash demo_full_block);
            TimestampLine (Block.timestamp demo_full_block);
            TransactionsLine (Block.transaction_count demo_full_block) ]
          ++ (transaction_line <$> Block.held demo_full_block)
          ++ [BlockFooter]) /\
  length (transaction_line <$> Block.held demo_full_block) =
    Z.to_nat (Block.transaction_count demo_full_block).
Proof. apply print_block_lines. vm_compute. discriminate. Defined.

(** A count above the number of slots makes [print_block] read past the
    array. *)
Lemma print_block_past block :
  Z.of_nat (length (Block.transactions block))
    < Block.transaction_count block ->
  print_block block = None.
Proof.
  intros H. unfold print_block.
  rewrite print_transactions_past by lia. reflexivity.
Qed.

Lemma print_blocks_lines chain count :
  Forall (fun b => Block.transaction_count b
                     <= Z.of_nat (length (Block.transactions b))) chain ->
  count + Z.of_nat (length chain) <= INT_MAX ->
  exists lines,
    Forall2 (fun b ls => print_block b = Some ls) chain lines /\
    print_blocks chain count =
      Some (concat lines ++ [TotalBlocks (count + Z.of_nat (length chain))]).
Proof.
  revert count. induction chain as [|b chain IH]; intros count Hf Hc.
  - exists []. split; [constructor|]. simpl. do 3 f_equal. lia.
  - apply Forall_cons in Hf as [Hb Hf].
    pose proof (print_block_some b Hb) as Hp.
    remember (_ ++ _) as ls in Hp. clear Heqls.
    destruct (IH (count + 1) Hf) as (lines & Hl & Hr);
      [simpl length in Hc; lia|].
    exists (ls :: lines). split; [constructor; [exact Hp|exact Hl]|].
    cbn [print_blocks]. rewrite Hp. cbn [mbind option_bind].
    unfold int_succ.
    destruct (Z.ltb_spec count INT_MAX); [|simpl length in Hc; lia].
    cbn [mbind option_bind]. rewrite Hr. cbn [mbind option_bind concat].
    replace (count + Z.of_nat (length (b :: chain)))
      with (count + 1 + Z.of_nat (length chain)) by (cbn [length]; lia).
    rewrite app_assoc. reflexivity.
Qed.

(** X14.  [print_blockchain] prints the blocks from the first to the last,
    each as [print_block] prints it, and then the number of blocks of the
    chain; for the empty chain it prints only the total 0.  It needs every
    count to be within its array and the number of blocks to fit an
    [int]. *)
Theorem print_blockchain_lines chain :
  Forall (fun b => Block.transaction_count b
                     <= Z.of_nat (length (Block.transactions b))) chain ->
  Z.of_nat (length chain) <= INT_MAX ->
  exists lines,
    Forall2 (fun b ls => print_block b = Some ls) chain lines /\
    print_blockchain chain =
      Some (concat lines ++ [TotalBlocks (Z.of_nat (length chain))]).
Proof.
  intros Hf Hc. unfold print_blockchain.
  destruct (print_blocks_lines chain 0 Hf) as (lines & Hl & Hr); [lia|].
  exists lines. split; [exact Hl|]. rewrite Hr. reflexivity.
Qed.

Lemma print_blockchain_lines_witness :
  exists lines,
    Forall2 (fun b ls => print_block b = Some ls) demo_chain lines /\
    print_blockchain demo_chain =
      Some (concat lines ++ [TotalBlocks (Z.of_nat (length demo_chain))]).
Proof.
  apply print_blockchain_lines.
  - vm_compute. repeat constructor; discriminate.
  - vm_compute. discriminate.
Defined.

(** ** Giving the memory back *)

Lemma free_from_chained h fuel a :
  chained h -> (a < length h)%nat -> (length h - a <= fuel)%nat ->
  free_from fuel h (seq 0 a) (Some a) = Some (seq 0 (length h)).
Proof.
  intros Hc. revert a. induction fuel as [|fuel IH]; intros a Ha Hf; [lia|].
  cbn [free_from].
  rewrite decide_False by (rewrite elem_of_seq; lia).
  destruct (lookup_lt_is_Some_2 h a Ha) as [c Hl].
  rewrite Hl. cbn [mbind option_bind]. rewrite (Hc a c Hl).
  replace (seq 0 a ++ [a]) with (seq 0 (S a)) by (rewrite seq_S; reflexivity).
  destruct (decide (S a < length h)%nat) as [Hlt|Hge].
  - apply IH; lia.
  - destruct fuel; cbn [free_from]; do 2 f_equal; lia.
Qed.

(** Once every block of the heap is freed, any further round touches freed
    memory or follows a pointer out of the heap: the rounds [free_from] is
    given are enough, and more change nothing. *)
Lemma free_from_all_freed fuel h freed p :
  NoDup freed -> Forall (fun a => (a < length h)%nat) freed ->
  (length h <= length freed)%nat ->
  free_from fuel h freed (Some p) = None.
Proof.
  intros Hnd Hb Hlen. destruct fuel as [|fuel]; [reflexivity|].
  cbn [free_from].
  destruct (decide (p ∈ freed)) as [Hin|Hnin]; [reflexivity|].
  destruct (h !! p) as [c|] eqn:Hp; [|reflexivity]. exfalso.
  apply lookup_lt_Some in Hp. apply Hnin.
  assert (freed ⊆+ seq 0 (length h)) as Hsub.
  { apply NoDup_submseteq; [exact Hnd|]. intros x Hx.
    apply elem_of_seq. rewrite Forall_forall in Hb. specialize (Hb x Hx). lia. }
  apply submseteq_length_Permutation in Hsub;
    [|rewrite length_seq; exact Hlen].
  rewrite Hsub. apply elem_of_seq. lia.
Qed.

Lemma free_from_more_fuel fuel k h freed p :
  NoDup freed -> Forall (fun a => (a < length h)%nat) freed ->
  (length h <= length freed + fuel)%nat ->
  free_from (fuel + k) h freed p = free_from fuel h freed p.
Proof.
  revert freed p. induction fuel as [|fuel IH]; intros freed p Hnd Hb Hlen.
  - destruct p as [a|]; [|destruct k; reflexivity].
    rewrite !free_from_all_freed by (auto; lia). reflexivity.
  - destruct p as [a|]; [|reflexivity]. cbn [Nat.add free_from].
    destruct (decide (a ∈ freed)) as [Hin|Hnin]; [reflexivity|].
    destruct (h !! a) as [c|] eqn:Ha; [|reflexivity]. cbn [mbind option_bind].
    apply IH.
    + apply NoDup_app. split; [exact Hnd|]. split.
      * intros x Hx Hx'. apply list_elem_of_singleton in Hx'. subst. auto.
      * apply NoDup_singleton.
    + apply Forall_app. split; [exact Hb|].
      apply Forall_singleton. exact (lookup_lt_Some _ _ _ Ha).
    + rewrite length_app. simpl. lia.
Qed.

(** X15.  From a configuration between calls, [free_blockchain] frees the
    blocks from the first to the last, each once and each after its [next]
    has been read, and leaves no block of the heap allocated.  The pointer
    [blockchain] is not reset: a second call with it touches freed memory. *)
Theorem free_blockchain_frees_all cfg :
  at_rest cfg ->
  free_blockchain (heap cfg) [] (blockchain cfg) =
    Some (seq 0 (length (heap cfg))) /\
  free_blockchain (heap cfg) (seq 0 (length (heap cfg))) (blockchain cfg) =
    None.
Proof.
  intros Hr. destruct (at_rest_settled _ Hr) as (Hne & Hbc & Hc & _).
  assert (0 < length (heap cfg))%nat as Hlen
    by (destruct (heap cfg); [congruence|simpl; lia]).
  rewrite Hbc. unfold free_blockchain. split.
  - apply (free_from_chained _ _ 0); [exact Hc|lia|lia].
  - destruct (length (heap cfg)) as [|n] eqn:E; [lia|].
    cbn [free_from]. rewrite decide_True; [reflexivity|].
    rewrite elem_of_seq. lia.
Qed.

Lemma free_blockchain_frees_all_witness :
  free_blockchain (heap demo_rest) [] (blockchain demo_rest) =
    Some (seq 0 (length (heap demo_rest))) /\
  free_blockchain (heap demo_rest) (seq 0 (length (heap demo_rest)))
    (blockchain demo_rest) = None.
Proof. exact (free_blockchain_frees_all demo_rest demo_rest_at_rest). Defined.

(** ** The list in memory *)

(** X16.  Between calls the list that starts at [blockchain] is well formed:
    it visits every block ever allocated, each once, in the order of
    allocation, and ends at a block whose [next] is NULL; read as a chain of
    the functional layer it is a chain the program can build. *)
Theorem chain_in_memory cfg :
  at_rest cfg ->
  chain_addrs cfg = seq 0 (length (heap cfg)) /\
  NoDup (chain_addrs cfg) /\
  (exists c, last (heap cfg) = Some c /\ next c = None) /\
  chain_of cfg = blk <$> heap cfg /\
  built (chain_of cfg).
Proof.
  intros Hr. pose proof (at_rest_settled _ Hr) as Hs.
  destruct (settled_shape _ Hs) as (h & l & E).
  destruct Hs as (Hne & Hbc & Hc & Hf).
  assert (chain_addrs cfg = seq 0 (length (heap cfg))) as Ha.
  { rewrite E. cbn [heap]. apply chain_addrs_chained.
    - intros H. apply app_eq_nil in H as [_ H]. discriminate.
    - rewrite E in Hc. exact Hc. }
  split; [exact Ha|]. split; [rewrite Ha; apply NoDup_seq|].
  split.
  { exists l. rewrite E in Hc |- *. cbn [heap] in Hc |- *.
    split; [apply last_snoc|apply (chained_last h), Hc]. }
  split; [apply chain_of_settled, at_rest_settled, Hr|].
  apply at_rest_built, Hr.
Qed.

Lemma chain_in_memory_witness :
  chain_addrs demo_rest = seq 0 (length (heap demo_rest)) /\
  NoDup (chain_addrs demo_rest) /\
  (exists c, last (heap demo_rest) = Some c /\ next c = None) /\
  chain_of demo_rest = blk <$> heap demo_rest /\
  built (chain_of demo_rest).
Proof. exact (chain_in_memory demo_rest demo_rest_at_rest). Defined.

(** X17.  The loop at the head of [add_block] ends on every configuration
    between calls, at the last block of the chain, and changes nothing in
    memory. *)
Theorem find_last_block_finds_last cfg :
  at_rest cfg ->
  exists cfg' c,
    find_last_block cfg = Some cfg' /\
    heap cfg' = heap cfg /\ blockchain cfg' = blockchain cfg /\
    out cfg' = out cfg /\
    last_block cfg' = Some (pred (length (heap cfg))) /\
    last (heap cfg) = Some c /\ next c = None.
Proof.
  intros Hr. pose proof (at_rest_settled _ Hr) as Hs.
  destruct (settled_shape _ Hs) as (h & l & E).
  destruct Hs as (_ & _ & Hc & _). rewrite E in Hc |- *. cbn [heap] in Hc.
  eexists _, l. split; [apply find_last_block_run, Hc|].
  cbn [heap blockchain out last_block]. repeat split.
  - rewrite length_app. simpl. f_equal. lia.
  - apply last_snoc.
  - apply (chained_last h), Hc.
Qed.

Lemma find_last_block_finds_last_witness :
  exists cfg' c,
    find_last_block demo_rest = Some cfg' /\
    heap cfg' = heap demo_rest /\ blockchain cfg' = blockchain demo_rest /\
    out cfg' = out demo_rest /\
    last_block cfg' = Some (pred (length (heap demo_rest))) /\
    last (heap demo_rest) = Some c /\ next c = None.
Proof. exact (find_last_block_finds_last demo_rest demo_rest_at_rest). Defined.

(** X18.  [add_block] leaves the blocks already in memory as they are: it
    allocates exactly one block, keeps [blockchain], changes no field of an
    older block and no [next] but that of the former last block, which it
    points at the new block, and only adds to what was printed. *)
Theorem add_block_keeps_older_blocks cfg fresh now now1 now2 cfg' :
  at_rest cfg ->
  exec (add_block_body fresh now now1 now2) cfg = Some cfg' ->
  length (heap cfg') = S (length (heap cfg)) /\
  blockchain cfg' = blockchain cfg /\
  (exists outs, out cfg' = out cfg ++ outs) /\
  forall a c, heap cfg !! a = Some c ->
    exists c',
      heap cfg' !! a = Some c' /\
      blk c' = blk c /\ hash_writes c' = hash_writes c /\
      next c' = (if decide (S a < length (heap cfg))%nat then next c
                 else Some (length (heap cfg))).
Proof.
  intros Hr He. pose proof (at_rest_settled _ Hr) as Hs.
  destruct (settled_shape _ Hs) as (h & l & E).
  destruct Hs as (_ & _ & Hc & _). rewrite E in He, Hc |- *.
  cbn [heap blockchain out] in Hc |- *.
  apply (exec_add_block _ _ _ _ _ _ _ _ _ _ Hc) in He as [_ He].
  rewrite last_add_block_trace in He. injection He as <-.
  cbn [heap blockchain out].
  split; [rewrite !length_app; simpl; lia|]. split; [reflexivity|].
  split; [eexists; reflexivity|].
  intros a c Ha. rewrite length_app. cbn [length].
  apply lookup_app_Some in Ha as [Ha|[Hlen Ha]].
  - exists c. pose proof (lookup_lt_Some _ _ _ Ha).
    split; [rewrite lookup_app_l by lia; exact Ha|].
    rewrite decide_True by lia. auto.
  - destruct (a - length h)%nat eqn:Hk; [|discriminate].
    injection Ha as <-. assert (a = length h) as -> by lia.
    eexists. split; [apply lookup_last_of_two|].
    rewrite decide_False by lia. cbn [blk hash_writes next set_next].
    repeat split. f_equal. lia.
Qed.

Lemma add_block_keeps_older_blocks_witness :
  length (heap (default initial (last demo_trace))) =
    S (length (heap demo_rest)) /\
  blockchain (default initial (last demo_trace)) = blockchain demo_rest /\
  (exists outs, out (default initial (last demo_trace)) =
                  out demo_rest ++ outs) /\
  forall a c, heap demo_rest !! a = Some c ->
    exists c',
      heap (default initial (last demo_trace)) !! a = Some c' /\
      blk c' = blk c /\ hash_writes c' = hash_writes c /\
      next c' = (if decide (S a < length (heap demo_rest))%nat then next c
                 else Some (length (heap demo_rest))).
Proof.
  apply (add_block_keeps_older_blocks demo_rest demo_cell demo_time
           demo_time demo_time).
  - exact demo_rest_at_rest.
  - unfold exec. rewrite demo_trace_run. vm_compute. reflexivity.
Defined.

(** * The token contract *)

Import TokenContract.

Lemma sum_of_insert_fresh m k v :
  m !! k = None -> sum_of (<[k := v]> m) = v + sum_of m.
Proof.
  intros H. unfold sum_of. rewrite map_fold_insert_L; [reflexivity| |exact H].
  intros. lia.
Qed.

Lemma sum_of_delete m k v :
  m !! k = Some v -> sum_of m = v + sum_of (delete k m).
Proof.
  intros H. unfold sum_of.
  rewrite (map_fold_delete_L _ _ k v m); [reflexivity| |exact H].
  intros. lia.
Qed.

Lemma sum_of_insert m k v :
  sum_of (<[k := v]> m) = v + sum_of m - get m k.
Proof.
  unfold get. destruct (m !! k) as [x|] eqn:Hk.
  - rewrite <- insert_delete_eq.
    rewrite sum_of_insert_fresh by apply lookup_delete_eq.
    rewrite (sum_of_delete m k x Hk). lia.
  - rewrite sum_of_insert_fresh by exact Hk. lia.
Qed.

Lemma nonneg_delete m k : nonneg m -> nonneg (delete k m).
Proof.
  intros H j x Hj. apply lookup_delete_Some in Hj as [_ Hj]. exact (H j x Hj).
Qed.

Lemma nonneg_insert m k v : nonneg m -> 0 <= v -> nonneg (<[k := v]> m).
Proof.
  intros H Hv j x Hj. apply lookup_insert_Some in Hj as [[_ <-]|[_ Hj]];
    [exact Hv|exact (H j x Hj)].
Qed.

Lemma get_nonneg m k : nonneg m -> 0 <= get m k.
Proof.
  intros H. unfold get. destruct (m !! k) eqn:E; [exact (H k _ E)|lia].
Qed.

Lemma sum_of_nonneg m : nonneg m -> 0 <= sum_of m.
Proof.
  induction m as [|k x m Hk _ IH] using map_first_key_ind.
  - intros _. unfold sum_of. rewrite map_fold_empty. lia.
  - intros Hn. rewrite sum_of_insert_fresh by exact Hk.
    assert (0 <= x) by (apply (Hn k); apply lookup_insert_eq).
    assert (nonneg m).
    { intros j y Hj. apply (Hn j). rewrite lookup_insert_ne; [exact Hj|].
      intros ->. congruence. }
    specialize (IH ltac:(assumption)). lia.
Qed.

Lemma get_le_sum m k : nonneg m -> get m k <= sum_of m.
Proof.
  intros Hn. unfold get. destruct (m !! k) as [x|] eqn:Hk.
  - rewrite (sum_of_delete m k x Hk).
    pose proof (sum_of_nonneg _ (nonneg_delete m k Hn)). lia.
  - apply sum_of_nonneg, Hn.
Qed.

Lemma two_le_sum m k1 k2 :
  nonneg m -> k1 <> k2 -> get m k1 + get m k2 <= sum_of m.
Proof.
  intros Hn Hne. unfold get at 1. destruct (m !! k1) as [x|] eqn:Hk.
  - rewrite (sum_of_delete m k1 x Hk).
    pose proof (get_le_sum (delete k1 m) k2 (nonneg_delete m k1 Hn)) as H.
    unfold get in H |- *. rewrite lookup_delete_ne in H by exact Hne. lia.
  - pose proof (get_le_sum m k2 Hn). lia.
Qed.

Lemma get_insert_eq m k v : get (<[k := v]> m) k = v.
Proof. unfold get. rewrite lookup_insert_eq. reflexivity. Qed.

Lemma get_insert_ne m k j v : k <> j -> get (<[k := v]> m) j = get m j.
Proof.
  intros H. unfold get. rewrite lookup_insert_ne by exact H. reflexivity.
Qed.

Lemma uint256_small z : 0 <= z < UINT256_MODULUS -> uint256 z = z.
Proof. intros H. unfold uint256. apply Z.mod_small, H. Qed.

(** What the two stores of [move] do to the balances, when the payer has
    the amount and the sum of the balances is a [uint256_t]. *)
Lemma move_balances c from to amount :
  nonneg (_balances c) ->
  sum_of (_balances c) < UINT256_MODULUS ->
  0 <= amount <= balanceOf c from ->
  nonneg (_balances (move from to amount c)) /\
  sum_of (_balances (move from to amount c)) = sum_of (_balances c) /\
  _allowances (move from to amount c) = _allowances c /\
  _totalSupply (move from to amount c) = _totalSupply c /\
  forall k,
    balanceOf (move from to amount c) k =
      if decide (from = to) then balanceOf c k
      else if decide (k = from) then balanceOf c from - amount
      else if decide (k = to) then balanceOf c to + amount
      else balanceOf c k.
Proof.
  intros Hn Hs Ha.
  change (balanceOf c from) with (get (_balances c) from) in Ha.
  pose proof (get_le_sum _ from Hn) as Hle.
  unfold move. cbn [_balances set_balances _allowances _totalSupply].
  change (balanceOf c from) with (get (_balances c) from).
  rewrite (uint256_small (get (_balances c) from - amount)) by lia.
  match goal with |- context [balanceOf ?c1 to] =>
    change (balanceOf c1 to)
      with (get (<[from := get (_balances c) from - amount]> (_balances c)) to)
  end.
  destruct (decide (from = to)) as [<-|Hne].
  - rewrite get_insert_eq.
    replace (get (_balances c) from - amount + amount)
      with (get (_balances c) from) by lia.
    rewrite uint256_small by lia. rewrite insert_insert_eq.
    split; [apply nonneg_insert; [exact Hn|lia]|].
    split; [rewrite sum_of_insert; lia|].
    do 2 (split; [reflexivity|]).
    intros k. unfold balanceOf. cbn [_balances set_balances].
    destruct (decide (k = from)) as [->|Hk].
    + rewrite lookup_insert_eq. unfold get.
      destruct (_balances c !! from); reflexivity.
    + rewrite lookup_insert_ne by auto. reflexivity.
  - rewrite get_insert_ne by exact Hne.
    pose proof (two_le_sum _ from to Hn Hne) as H2.
    pose proof (get_nonneg _ to Hn) as Hto.
    rewrite uint256_small by lia.
    split.
    { apply nonneg_insert; [apply nonneg_insert; [exact Hn|lia]|lia]. }
    split.
    { rewrite !sum_of_insert. rewrite get_insert_ne by exact Hne. lia. }
    do 2 (split; [reflexivity|]).
    intros k. unfold balanceOf. cbn [_balances set_balances].
    destruct (decide (k = from)) as [->|Hkf].
    + rewrite lookup_insert_ne by auto. rewrite lookup_insert_eq. reflexivity.
    + destruct (decide (k = to)) as [->|Hkt].
      * rewrite lookup_insert_eq. reflexivity.
      * rewrite !lookup_insert_ne by auto. reflexivity.
Qed.

Lemma allowance_store c owner spender v o s :
  allowance (set_allowances (store_allowance owner spender v (_allowances c)) c)
    o s =
  if decide (o = owner /\ s = spender) then v else allowance c o s.
Proof.
  unfold allowance, store_allowance. cbn [_allowances set_allowances].
  destruct (decide (o = owner)) as [->|Ho].
  - rewrite lookup_insert_eq.
    destruct (decide (s = spender)) as [->|Hs].
    + rewrite lookup_insert_eq. rewrite decide_True by auto. reflexivity.
    + rewrite lookup_insert_ne by auto. rewrite decide_False by tauto.
      destruct (_allowances c !! owner); [reflexivity|].
      cbn [default]. rewrite lookup_empty. reflexivity.
  - rewrite lookup_insert_ne by auto. rewrite decide_False by tauto.
    reflexivity.
Qed.

Lemma sound_create name symbol decimals initialSupply :
  is_uint256 initialSupply ->
  sound (create name symbol decimals initialSupply).1.
Proof.
  intros Hi. unfold sound, create, circulating, totalSupply, is_uint256 in *.
  cbn [fst _balances _totalSupply].
  split.
  { intros k x Hk. apply lookup_insert_Some in Hk as [[_ <-]|[_ Hk]];
      [lia|rewrite lookup_empty in Hk; discriminate]. }
  split.
  { change (sum_of (<["0x0"%string := initialSupply]> ∅) = initialSupply).
    rewrite sum_of_insert_fresh by apply lookup_empty.
    unfold sum_of. rewrite map_fold_empty. lia. }
  split; [exact Hi|].
  unfold allowance. cbn [_allowances]. split; intros; rewrite lookup_empty;
    unfold UINT256_MODULUS; lia.
Qed.

Lemma sound_move c from to amount :
  sound c -> 0 <= amount <= balanceOf c from ->
  (forall o s, allowance (move from to amount c) o s = allowance c o s) /\
  sound (move from to amount c).
Proof.
  intros (Hn & Hs & Ht & Ha & Ho) Hb.
  unfold circulating, totalSupply, is_uint256 in *.
  change (map_fold (fun _ v acc => v + acc) 0 (_balances c))
    with (sum_of (_balances c)) in Hs.
  destruct (move_balances c from to amount Hn ltac:(lia) Hb)
    as (Hn' & Hs' & Hal & Hts & _).
  assert (forall o s, allowance (move from to amount c) o s = allowance c o s)
    as Heq by (intros; unfold allowance; rewrite Hal; reflexivity).
  split; [exact Heq|].
  unfold sound, circulating, totalSupply, is_uint256.
  change (map_fold (fun _ v acc => v + acc) 0
            (_balances (move from to amount c)))
    with (sum_of (_balances (move from to amount c))).
  rewrite Hs', Hts. repeat split; try (intros; rewrite Heq); auto; try lia;
    try apply Ha.
Qed.

Lemma sound_store_allowance c spender v :
  sound c -> is_uint256 v ->
  sound
    (set_allowances (store_allowance msgSender spender v (_allowances c)) c).
Proof.
  intros (Hn & Hs & Ht & Ha & Ho) Hv.
  repeat split; try assumption; try apply Ht.
  - rewrite allowance_store. destruct (decide _); [apply Hv|apply Ha].
  - rewrite allowance_store. destruct (decide _); [apply Hv|apply Ha].
  - intros owner s Hne. rewrite allowance_store.
    rewrite decide_False by tauto. apply Ho, Hne.
Qed.

Lemma sound_approve c spender amount :
  sound c -> is_uint256 amount -> sound (approve c spender amount).1.2.
Proof.
  intros Hs Ha. unfold approve.
  destruct (balanceOf c msgSender <? amount); [exact Hs|].
  apply sound_store_allowance; assumption.
Qed.

Lemma sound_transfer c to amount :
  sound c -> is_uint256 amount -> sound (transfer c to amount).1.2.
Proof.
  intros Hs Ha. unfold transfer.
  destruct (Z.ltb_spec (balanceOf c msgSender) amount); [exact Hs|].
  apply sound_move; [exact Hs|]. unfold is_uint256 in Ha. lia.
Qed.

Lemma sound_transferFrom c from to amount :
  sound c -> is_uint256 amount -> sound (transferFrom c from to amount).1.2.
Proof.
  intros Hs Ha. unfold transferFrom.
  destruct (Z.ltb_spec (allowance c from msgSender) amount) as [|Hal];
    [exact Hs|].
  destruct (Z.ltb_spec (balanceOf c from) amount) as [|Hb]; [exact Hs|].
  cbn [fst snd].
  destruct (decide (from = msgSender)) as [->|Hne].
  - apply sound_move; [|unfold is_uint256 in Ha; exact (conj (proj1 Ha) Hb)].
    apply sound_store_allowance; [exact Hs|].
    destruct Hs as (_ & _ & _ & Hr & _).
    specialize (Hr msgSender msgSender). unfold is_uint256 in *.
    rewrite uint256_small; lia.
  - destruct Hs as (Hn & Hs & Ht & Hr & Ho).
    pose proof (Ho from msgSender Hne) as H0.
    assert (amount = 0) as -> by (unfold is_uint256 in Ha; lia).
    rewrite H0. change (uint256 (0 - 0)) with 0.
    apply sound_move; [|unfold is_uint256 in Ha; exact (conj (proj1 Ha) Hb)].
    repeat split; try assumption; try apply Ht.
    + rewrite allowance_store. destruct (decide _); [|apply Hr].
      unfold UINT256_MODULUS. lia.
    + rewrite allowance_store. destruct (decide _); [|apply Hr].
      unfold UINT256_MODULUS. lia.
    + intros owner s Hown. rewrite allowance_store.
      destruct (decide _); [reflexivity|apply Ho, Hown].
Qed.

Lemma reachable_sound c : reachable c -> sound c.
Proof.
  induction 1.
  - apply sound_create; assumption.
  - apply sound_approve; assumption.
  - apply sound_transfer; assumption.
  - apply sound_transferFrom; assumption.
Qed.

Lemma is_uint256_small z : 0 <= z < 2 ^ 32 -> is_uint256 z.
Proof. unfold is_uint256, UINT256_MODULUS. lia. Qed.

Lemma demo_token_reachable : reachable demo_token.
Proof. apply reach_create. apply is_uint256_small. lia. Qed.

Lemma demo_token_approved_reachable : reachable demo_token_approved.
Proof.
  apply reach_approve; [exact demo_token_reachable|].
  apply is_uint256_small. lia.
Qed.

Lemma allowance_move c from to amount o s :
  allowance (move from to amount c) o s = allowance c o s.
Proof. reflexivity. Qed.

(** X19.  [transfer] in any state the contract can reach: when the balance
    of the sender ["0x0"] covers the amount it returns true, takes the
    amount from that balance and adds it to the receiver's, without
    overflow, and touches no other balance, no allowance and not the total
    supply (a transfer to ["0x0"] itself changes no balance); otherwise it
    returns false and leaves the state as it was. *)
Theorem transfer_moves_tokens c to amount :
  reachable c -> is_uint256 amount ->
  (amount <= balanceOf c msgSender ->
     exists c',
       transfer c to amount = (true, c', [Transfered amount msgSender to]) /\
       (forall k,
          balanceOf c' k =
            if decide (msgSender = to) then balanceOf c k
            else if decide (k = msgSender) then balanceOf c msgSender - amount
            else if decide (k = to) then balanceOf c to + amount
            else balanceOf c k) /\
       (forall o s, allowance c' o s = allowance c o s) /\
       totalSupply c' = totalSupply c) /\
  (balanceOf c msgSender < amount ->
     transfer c to amount = (false, c, [TransferFailedBalance])).
Proof.
  intros Hr Ha. pose proof (reachable_sound _ Hr) as Hs.
  assert (sum_of (_balances c) < UINT256_MODULUS) as Hsum.
  { destruct Hs as (_ & Hc & Ht & _). unfold circulating in Hc.
    change (sum_of (_balances c) = totalSupply c) in Hc.
    unfold is_uint256 in Ht. lia. }
  split; intros Hb; unfold transfer;
    destruct (Z.ltb_spec (balanceOf c msgSender) amount); try lia;
    [|reflexivity].
  eexists. split; [reflexivity|].
  destruct (move_balances c msgSender to amount (proj1 Hs) Hsum)
    as (_ & _ & Hal & Hts & Hk); [unfold is_uint256 in Ha; lia|].
  split; [exact Hk|]. split; [|exact Hts].
  intros o s. unfold allowance. rewrite Hal. reflexivity.
Qed.

Lemma transfer_moves_tokens_witness :
  (200 <= balanceOf demo_token msgSender ->
     exists c',
       transfer demo_token "0xBob" 200 =
         (true, c', [Transfered 200 msgSender "0xBob"]) /\
       (forall k,
          balanceOf c' k =
            if decide (msgSender = "0xBob"%string) then balanceOf demo_token k
            else if decide (k = msgSender)
                 then balanceOf demo_token msgSender - 200
            else if decide (k = "0xBob"%string)
                 then balanceOf demo_token "0xBob" + 200
            else balanceOf demo_token k) /\
       (forall o s, allowance c' o s = allowance demo_token o s) /\
       totalSupply c' = totalSupply demo_token) /\
  (balanceOf demo_token msgSender < 200 ->
     transfer demo_token "0xBob" 200 =
       (false, demo_token, [TransferFailedBalance])).
Proof.
  apply transfer_moves_tokens.
  - exact demo_token_reachable.
  - apply is_uint256_small. lia.
Defined.

(** X20.  In every state the contract can reach the balances add up to the
    total supply, which is a [uint256_t] no call changes; so every balance
    lies between 0 and the total supply: tokens are neither made nor
    lost. *)
Theorem supply_is_conserved c :
  reachable c ->
  circulating c = totalSupply c /\
  is_uint256 (totalSupply c) /\
  (forall k, 0 <= balanceOf c k <= totalSupply c) /\
  (forall spender amount,
     totalSupply (approve c spender amount).1.2 = totalSupply c) /\
  (forall to amount,
     totalSupply (transfer c to amount).1.2 = totalSupply c) /\
  (forall from to amount,
     totalSupply (transferFrom c from to amount).1.2 = totalSupply c).
Proof.
  intros Hr. destruct (reachable_sound _ Hr) as (Hn & Hc & Ht & _).
  split; [exact Hc|]. split; [exact Ht|]. split.
  { intros k. change (balanceOf c k) with (get (_balances c) k).
    pose proof (get_nonneg _ k Hn). pose proof (get_le_sum _ k Hn) as Hle.
    unfold circulating in Hc.
    change (sum_of (_balances c) = totalSupply c) in Hc.
    lia. }
  split; [|split].
  - intros. unfold approve. destruct (_ <? _); reflexivity.
  - intros. unfold transfer. destruct (_ <? _); reflexivity.
  - intros. unfold transferFrom. do 2 (destruct (_ <? _); [reflexivity|]).
    reflexivity.
Qed.

Lemma supply_is_conserved_witness :
  circulating demo_token_approved = totalSupply demo_token_approved /\
  is_uint256 (totalSupply demo_token_approved) /\
  (forall k, 0 <= balanceOf demo_token_approved k
             <= totalSupply demo_token_approved) /\
  (forall spender amount,
     totalSupply (approve demo_token_approved spender amount).1.2 =
       totalSupply demo_token_approved) /\
  (forall to amount,
     totalSupply (transfer demo_token_approved to amount).1.2 =
       totalSupply demo_token_approved) /\
  (forall from to amount,
     totalSupply (transferFrom demo_token_approved from to amount).1.2 =
       totalSupply demo_token_approved).
Proof.
  exact (supply_is_conserved demo_token_approved
           demo_token_approved_reachable).
Defined.

(** X21.  [approve] in any state: when the balance of ["0x0"] is at least
    the amount it returns true and afterwards [allowance("0x0", spender)] is
    that amount, every other allowance and every balance being as before;
    when the balance is smaller it returns false and changes nothing. *)
Theorem approve_sets_allowance c spender amount :
  (amount <= balanceOf c msgSender ->
     exists c',
       approve c spender amount = (true, c', [Approved amount spender]) /\
       allowance c' msgSender spender = amount /\
       (forall o s, ~ (o = msgSender /\ s = spender) ->
          allowance c' o s = allowance c o s) /\
       _balances c' = _balances c /\
       totalSupply c' = totalSupply c) /\
  (balanceOf c msgSender < amount ->
     approve c spender amount = (false, c, [ApprovalFailed])).
Proof.
  split; intros Hb; unfold approve;
    destruct (Z.ltb_spec (balanceOf c msgSender) amount); try lia;
    [|reflexivity].
  eexists. split; [reflexivity|].
  split; [rewrite allowance_store, decide_True by auto; reflexivity|].
  split; [|split; reflexivity].
  intros o s Hos. rewrite allowance_store, decide_False by exact Hos.
  reflexivity.
Qed.

(** X22.  In every state the contract can reach only ["0x0"] has granted
    allowances, because [msgSender()] is always ["0x0"]: a [transferFrom]
    of a positive amount from any other address returns false with
    "Insufficient allowance" and changes nothing. *)
Theorem transferFrom_other_owner_fails c from to amount :
  reachable c -> from <> msgSender -> 0 < amount ->
  allowance c from msgSender = 0 /\
  transferFrom c from to amount = (false, c, [TransferFailedAllowance]).
Proof.
  intros Hr Hne Ha. destruct (reachable_sound _ Hr) as (_ & _ & _ & _ & Ho).
  pose proof (Ho from msgSender Hne) as H0. split; [exact H0|].
  unfold transferFrom. rewrite H0.
  destruct (Z.ltb_spec 0 amount); [reflexivity|lia].
Qed.

Lemma transferFrom_other_owner_fails_witness :
  allowance demo_token_approved "0xAlice" msgSender = 0 /\
  transferFrom demo_token_approved "0xAlice" "0xCharlie" 500 =
    (false, demo_token_approved, [TransferFailedAllowance]).
Proof.
  apply transferFrom_other_owner_fails.
  - exact demo_token_approved_reachable.
  - discriminate.
  - lia.
Defined.

(** X23.  [transferFrom] in any state the contract can reach: when the
    allowance granted by [from] to ["0x0"] and the balance of [from] both
    cover the amount, it returns true, lowers that allowance by the amount
    and moves the amount from [from] to [to]; with too small an allowance,
    or else too small a balance, it returns false and changes nothing. *)
Theorem transferFrom_spends_allowance c from to amount :
  reachable c -> is_uint256 amount ->
  (amount <= allowance c from msgSender -> amount <= balanceOf c from ->
     exists c',
       transferFrom c from to amount =
         (true, c', [Transferred amount from to]) /\
       allowance c' from msgSender = allowance c from msgSender - amount /\
       (forall o s, ~ (o = from /\ s = msgSender) ->
          allowance c' o s = allowance c o s) /\
       (forall k,
          balanceOf c' k =
            if decide (from = to) then balanceOf c k
            else if decide (k = from) then balanceOf c from - amount
            else if decide (k = to) then balanceOf c to + amount
            else balanceOf c k) /\
       totalSupply c' = totalSupply c) /\
  (allowance c from msgSender < amount ->
     transferFrom c from to amount = (false, c, [TransferFailedAllowance])) /\
  (amount <= allowance c from msgSender -> balanceOf c from < amount ->
     transferFrom c from to amount = (false, c, [TransferFailedBalance])).
Proof.
  intros Hr Ha. pose proof (reachable_sound _ Hr) as Hs.
  assert (sum_of (_balances c) < UINT256_MODULUS) as Hsum.
  { destruct Hs as (_ & Hc & Ht & _). unfold circulating in Hc.
    change (sum_of (_balances c) = totalSupply c) in Hc.
    unfold is_uint256 in Ht. lia. }
  unfold transferFrom. split; [|split].
  - intros Hal Hb.
    destruct (Z.ltb_spec (allowance c from msgSender) amount); [lia|].
    destruct (Z.ltb_spec (balanceOf c from) amount); [lia|].
    eexists. split; [reflexivity|].
    match goal with |- context [move from to amount ?c1] =>
      destruct (move_balances c1 from to amount (proj1 Hs) Hsum)
        as (_ & _ & _ & Hts & Hk);
        [unfold is_uint256 in Ha;
         change (balanceOf c1 from) with (balanceOf c from); lia|]
    end.
    pose proof allowance_move as Heq.
    assert (is_uint256 (allowance c from msgSender)) as Hrange
      by (destruct Hs as (_ & _ & _ & Hrg & _); apply Hrg).
    unfold is_uint256 in Ha, Hrange.
    split; [rewrite Heq, allowance_store, decide_True by auto;
            apply uint256_small; lia|].
    split; [intros o s Hos; rewrite Heq, allowance_store,
              decide_False by exact Hos; reflexivity|].
    split; [exact Hk|exact Hts].
  - intros Hal.
    destruct (Z.ltb_spec (allowance c from msgSender) amount); [|lia].
    reflexivity.
  - intros Hal Hb.
    destruct (Z.ltb_spec (allowance c from msgSender) amount); [lia|].
    destruct (Z.ltb_spec (balanceOf c from) amount); [|lia]. reflexivity.
Qed.

Lemma transferFrom_spends_allowance_witness :
  (200 <= allowance demo_token_approved "0x0" msgSender ->
   200 <= balanceOf demo_token_approved "0x0" ->
     exists c',
       transferFrom demo_token_approved "0x0" "0xCharlie" 200 =
         (true, c', [Transferred 200 "0x0" "0xCharlie"]) /\
       allowance c' "0x0" msgSender =
         allowance demo_token_approved "0x0" msgSender - 200 /\
       (forall o s, ~ (o = "0x0"%string /\ s = msgSender) ->
          allowance c' o s = allowance demo_token_approved o s) /\
       (forall k,
          balanceOf c' k =
            if decide ("0x0"%string = "0xCharlie"%string)
            then balanceOf demo_token_approved k
            else if decide (k = "0x0"%string)
                 then balanceOf demo_token_approved "0x0" - 200
            else if decide (k = "0xCharlie"%string)
                 then balanceOf demo_token_approved "0xCharlie" + 200
            else balanceOf demo_token_approved k) /\
       totalSupply c' = totalSupply demo_token_approved) /\
  (allowance demo_token_approved "0x0" msgSender < 200 ->
     transferFrom demo_token_approved "0x0" "0xCharlie" 200 =
       (false, demo_token_approved, [TransferFailedAllowance])) /\
  (200 <= allowance demo_token_approved "0x0" msgSender ->
   balanceOf demo_token_approved "0x0" < 200 ->
     transferFrom demo_token_approved "0x0" "0xCharlie" 200 =
       (false, demo_token_approved, [TransferFailedBalance])).
Proof.
  apply transferFrom_spends_allowance.
  - exact demo_token_approved_reachable.
  - apply is_uint256_small. lia.
Defined.

(** The run of [main]: the approval for Bob goes through, the
    [transferFrom] on behalf of Alice fails, and the two transfers move 300
    tokens from ["0x0"] to Bob; nothing reaches Alice or Charlie. *)
Example main_run :
  let c0 := demo_token in
  let '(ok1, c1, _) := approve c0 "0xBob" 500 in
  let '(ok2, c2, _) := transferFrom c1 "0xAlice" "0xCharlie" 500 in
  let '(ok3, c3, _) := transfer c2 "0xBob" 200 in
  let '(ok4, c4, _) := transfer c3 "0xBob" 100 in
  [ok1; ok2; ok3; ok4] = [true; false; true; true] /\
  balanceOf c4 "0x0" = 999700 /\ balanceOf c4 "0xBob" = 300 /\
  balanceOf c4 "0xAlice" = 0 /\ balanceOf c4 "0xCharlie" = 0.
Proof. vm_compute. repeat split. Qed.
